(** * SOI FFT: the filter-and-subsample stage

    A shallow embedding of [parallel_filter_subsampling]
    (src/parallel_filter_subsampling.cpp) for the double-precision AVX build:
    [VAL_TYPE] is [double], a SIMD register holds four of them, that is two
    complex numbers.

    Floating-point arithmetic is kept abstract: the scalar type and its
    operations are the fields of the class [FloatOps], and no algebraic law
    is assumed of them.  Two computations are therefore equal in this
    development only when they perform the same operations on the same
    operands in the same order, which is what bit-identical means for
    deterministic machine arithmetic. *)

From Stdlib Require Import ZArith List Lia Bool.
Import ListNotations.
Open Scope Z_scope.

Set Implicit Arguments.

(** ** Scalars, SIMD registers and memory *)

(** The lane operations of the vector unit on [VAL_TYPE]. *)
Class FloatOps (T : Type) := {
  fadd : T -> T -> T;        (* a + b *)
  fmul : T -> T -> T;        (* a * b *)
  fmsub : T -> T -> T -> T;  (* a * b - c *)
  fmadd : T -> T -> T -> T   (* a * b + c *)
}.

(** Exact integer arithmetic, used to run the model on concrete inputs. *)
#[export] Instance ZOps : FloatOps Z := {
  fadd := Z.add;
  fmul := Z.mul;
  fmsub := fun a b c => a * b - c;
  fmadd := fun a b c => a * b + c
}.

(** A 256-bit register of four [VAL_TYPE] lanes, lane 0 at the lowest
    address. *)
Record SIMDFPTYPE (T : Type) := mkv { l0 : T; l1 : T; l2 : T; l3 : T }.

(** Modelled from the spec: intrinsic.h is missing; [SIMD_WIDTH] is the number
    of [VAL_TYPE] lanes of a register, four for [__m256d]. *)
Definition SIMD_WIDTH : Z := 4.

(** [CACHE_LINE_LEN] is [64/sizeof(VAL_TYPE)] with an 8-byte [VAL_TYPE]. *)
Definition CACHE_LINE_LEN : Z := 64 / 8.

(** A buffer of [VAL_TYPE]; a [cfft_complex_t] array is such a buffer with
    element [c] at offsets [2c] (real part) and [2c+1] (imaginary part). *)
Definition buffer (T : Type) := Z -> T.

(** A complex number as the pair of its real and imaginary parts. *)
Definition cfft_complex_t (T : Type) := (T * T)%type.

Definition cread {T} (m : buffer T) (c : Z) : cfft_complex_t T :=
  (m (2 * c), m (2 * c + 1)).

Definition cwrite {T} (m : buffer T) (c : Z) (v : cfft_complex_t T) : buffer T :=
  fun a => if a =? 2 * c then fst v
           else if a =? 2 * c + 1 then snd v
           else m a.

(** An array of SIMD registers ([w_dup], [input_buffer]). *)
Definition vbuffer (T : Type) := Z -> SIMDFPTYPE T.

Definition vset {T} (b : vbuffer T) (i : Z) (v : SIMDFPTYPE T) : vbuffer T :=
  fun a => if a =? i then v else b a.

Section Intrinsics.

Context {T : Type} {F : FloatOps T}.

(** Modelled from the spec: intrinsic.h is missing; [_MM_LOAD p] reads the
    four consecutive [VAL_TYPE] at [p]. *)
Definition _MM_LOAD (m : buffer T) (p : Z) : SIMDFPTYPE T :=
  mkv (m p) (m (p + 1)) (m (p + 2)) (m (p + 3)).

(** Modelled from the spec: intrinsic.h is missing; [_MM_STORE p v] writes the
    four lanes of [v] to the consecutive [VAL_TYPE] at [p]. *)
Definition _MM_STORE (m : buffer T) (p : Z) (v : SIMDFPTYPE T) : buffer T :=
  fun a => if a =? p then l0 v
           else if a =? p + 1 then l1 v
           else if a =? p + 2 then l2 v
           else if a =? p + 3 then l3 v
           else m a.

(** Modelled from the spec: intrinsic.h is missing; [_MM_STREAM] is the
    non-temporal store, which leaves memory as [_MM_STORE] does. *)
Definition _MM_STREAM (m : buffer T) (p : Z) (v : SIMDFPTYPE T) : buffer T :=
  _MM_STORE m p v.

(** Modelled from the spec: intrinsic.h is missing; lane-wise product. *)
Definition _MM_MUL (a b : SIMDFPTYPE T) : SIMDFPTYPE T :=
  mkv (fmul (l0 a) (l0 b)) (fmul (l1 a) (l1 b))
      (fmul (l2 a) (l2 b)) (fmul (l3 a) (l3 b)).

(** Modelled from the spec: intrinsic.h is missing; lane-wise sum. *)
Definition _MM_ADD (a b : SIMDFPTYPE T) : SIMDFPTYPE T :=
  mkv (fadd (l0 a) (l0 b)) (fadd (l1 a) (l1 b))
      (fadd (l2 a) (l2 b)) (fadd (l3 a) (l3 b)).

(** Modelled from the spec: intrinsic.h is missing; exchanges the real and the
    imaginary lane of each of the two complex numbers of a register. *)
Definition _MM_SWAP_REAL_IMAG (a : SIMDFPTYPE T) : SIMDFPTYPE T :=
  mkv (l1 a) (l0 a) (l3 a) (l2 a).

(** Modelled from the spec: intrinsic.h is missing; [a*b - c] in the even
    lanes and [a*b + c] in the odd lanes, as the instruction of that name. *)
Definition _MM_FMADDSUB (a b c : SIMDFPTYPE T) : SIMDFPTYPE T :=
  mkv (fmsub (l0 a) (l0 b) (l0 c)) (fmadd (l1 a) (l1 b) (l1 c))
      (fmsub (l2 a) (l2 b) (l2 c)) (fmadd (l3 a) (l3 b) (l3 c)).

(** The 128-bit half of [a] or [b] that two control bits of
    [_mm256_permute2f128_pd] select. *)
Definition select128 (a b : SIMDFPTYPE T) (ctl : Z) : T * T :=
  if ctl =? 0 then (l0 a, l1 a)
  else if ctl =? 1 then (l2 a, l3 a)
  else if ctl =? 2 then (l0 b, l1 b)
  else (l2 b, l3 b).

(** [_mm256_permute2f128_pd a b imm8]: bits 1:0 of [imm8] pick the low half of
    the result and bits 5:4 the high half.  The zeroing bits 3 and 7 are clear
    in every control word the source uses. *)
Definition _mm256_permute2f128_pd (a b : SIMDFPTYPE T) (imm8 : Z) : SIMDFPTYPE T :=
  let lo := select128 a b (Z.land imm8 3) in
  let hi := select128 a b (Z.land (Z.shiftr imm8 4) 3) in
  mkv (fst lo) (snd lo) (fst hi) (snd hi).

(** [_mm256_castpd256_pd128 a]: the low 128 bits of [a]. *)
Definition _mm256_castpd256_pd128 (a : SIMDFPTYPE T) : T * T := (l0 a, l1 a).

(** [_mm256_insertf128_pd a b imm8]: [a] with the half that bit 0 of [imm8]
    names replaced by [b]. *)
Definition _mm256_insertf128_pd (a : SIMDFPTYPE T) (b : T * T) (imm8 : Z) : SIMDFPTYPE T :=
  if Z.land imm8 1 =? 0 then mkv (fst b) (snd b) (l2 a) (l3 a)
  else mkv (l0 a) (l1 a) (fst b) (snd b).

End Intrinsics.

(** ** Loops *)

(** The values a C loop [for (i = lo; i < hi; i += step)] takes, [step > 0]. *)
Definition range (lo hi step : Z) : list Z :=
  map (fun t => lo + step * Z.of_nat t)
      (seq 0 (Z.to_nat ((hi - lo + step - 1) / step))).

Definition for_loop {St : Type} (lo hi step : Z) (body : Z -> St -> St) (s : St) : St :=
  fold_left (fun st i => body i st) (range lo hi step) s.

(** ** The descriptor and the sizes derived from it *)

(** [size_t] arithmetic: results are taken modulo [2^64]. *)
Definition u64 (x : Z) : Z := x mod 2 ^ 64.

(** The value of [(double)x] for a [size_t] [x]: [x] itself when it fits the
    53-bit significand, else [x] rounded to the nearest representable number,
    ties to the even significand. *)
Definition double_of_size_t (x : Z) : Z :=
  if x <? 2 ^ 53 then x
  else
    let e := Z.log2 x - 52 in
    let q := x / 2 ^ e in
    let r := x mod 2 ^ e in
    let half := 2 ^ (e - 1) in
    (if (half <? r) || ((r =? half) && Z.odd q) then q + 1 else q) * 2 ^ e.

(** The fields of [soi_desc_t] that the stage reads.  The three buffers it
    writes ([gamma_tilde], [alpha_tilde], [alpha_ghost]) live in the process
    state below.  [d_desc_dft_s] stands for the transform that the DFTI
    descriptor [desc_dft_s] was committed to: it maps a block of complex
    numbers, indexed from 0, to its transform. *)
Record soi_desc_t (T : Type) := {
  d_P : Z;
  d_rank : Z;
  d_k : Z;
  d_N : Z;
  d_n_mu : Z;
  d_d_mu : Z;
  d_B : Z;
  d_w_dup : vbuffer T;
  d_desc_dft_s : (Z -> cfft_complex_t T) -> Z -> cfft_complex_t T
}.

Section Sizes.

Context {T : Type}.
Variable d : soi_desc_t T.

(** [S = d->k*d->P], line 66. *)
Definition S_ : Z := u64 (d_k d * d_P d).

(** [M = d->N/S], line 69. *)
Definition M_ : Z := d_N d / S_.

(** [M_hat = d->n_mu*M/d->d_mu], line 70. *)
Definition M_hat : Z := u64 (d_n_mu d * M_) / d_d_mu d.

(** [PID_left = (P+rank-1)%P] and [PID_right = (rank+1)%P], lines 63-64. *)
Definition PID_left : Z := u64 (u64 (d_P d + d_rank d) - 1) mod d_P d.
Definition PID_right : Z := u64 (d_rank d + 1) mod d_P d.

(** [K_0 = floor(((M/P)-B) / d_mu)], line 88: an unsigned subtraction and
    division, a conversion to [double] for [floor], and one back. *)
Definition K_0 : Z :=
  u64 (double_of_size_t (u64 (M_ / d_P d - d_B d) / d_d_mu d)).

(** [b_cnt], [n_elements] and [addr_start], lines 101-104. *)
Definition b_cnt : Z := u64 (M_ / d_P d - u64 (K_0 * d_d_mu d)).
Definition n_elements : Z := u64 (u64 (d_B d - d_d_mu d) * S_).
Definition addr_start : Z := u64 (b_cnt * S_).

(** The number of output rows of this process, [M_hat/(P*n_mu)], line 497. *)
Definition rows : Z := M_hat / u64 (d_P d * d_n_mu d).

(** [l = M_hat/d->P], the leading dimension of [alpha_tilde]. *)
Definition l_ : Z := M_hat / d_P d.

End Sizes.

(** ** The convolution kernels *)

Section Kernels.

Context {T : Type} {F : FloatOps T}.
Variable d : soi_desc_t T.

Let S := S_ d.
Let B := d_B d.
Let n_mu := d_n_mu d.
Let d_mu := d_d_mu d.

(** The product and accumulation step shared by every kernel:
    [_MM_FMADDSUB(xl, ytemp, _MM_SWAP_REAL_IMAG(_MM_MUL(xh, ytemp)))]. *)
Definition cmul_simd (xl xh ytemp : SIMDFPTYPE T) : SIMDFPTYPE T :=
  _MM_FMADDSUB xl ytemp (_MM_SWAP_REAL_IMAG (_MM_MUL xh ytemp)).

(** The kernel of the rows left over by the unrolled loop, lines 407-428: the
    block of row [j] and oversampling index [theta], read from [alpha_dt]. *)
Definition conv_remainder (alpha_dt : buffer T) (j theta : Z) (gamma : buffer T) : buffer T :=
  let v_tmp := S * (j * n_mu + theta) in
  for_loop 0 S (CACHE_LINE_LEN / 2) (fun i g =>
    for_loop 0 2 1 (fun ii g =>
      let in0 := i * B * n_mu + theta * (CACHE_LINE_LEN / 2) + ii * 2 in
      let xl := d_w_dup d in0 in
      let xh := d_w_dup d (in0 + 1) in
      let ytemp := _MM_LOAD alpha_dt (2 * (j * d_mu * S + i) + ii * SIMD_WIDTH) in
      let temp := cmul_simd xl xh ytemp in
      let in1 := in0 + n_mu * (CACHE_LINE_LEN / 2) in
      let acc :=
        for_loop 1 B 1 (fun kkk (st : SIMDFPTYPE T * Z) =>
          let (temp, in_) := st in
          let xl := d_w_dup d in_ in
          let xh := d_w_dup d (in_ + 1) in
          let ytemp :=
            _MM_LOAD alpha_dt (2 * ((j * d_mu + kkk) * S + i) + ii * SIMD_WIDTH) in
          (_MM_ADD temp (cmul_simd xl xh ytemp), in_ + n_mu * (CACHE_LINE_LEN / 2)))
          (temp, in1) in
      _MM_STORE g (2 * (v_tmp + i) + ii * SIMD_WIDTH) (fst acc)) g) gamma.

(** The kernel of the boundary pass, lines 499-515: the block of local row
    [j] (row [K_0 + j] of the process) and [theta], read from [alpha_ghost]. *)
Definition conv_boundary (alpha_ghost : buffer T) (j theta : Z) (gamma : buffer T) : buffer T :=
  let v_tmp := (K_0 d * n_mu + j * n_mu + theta) * S in
  for_loop 0 S (CACHE_LINE_LEN / 2) (fun i g =>
    for_loop 0 2 1 (fun ii g =>
      let xl := d_w_dup d (i * B * n_mu + theta * (CACHE_LINE_LEN / 2) + ii * 2) in
      let xh := d_w_dup d (i * B * n_mu + theta * (CACHE_LINE_LEN / 2) + ii * 2 + 1) in
      let ytemp := _MM_LOAD alpha_ghost (2 * (j * d_mu * S + i) + ii * SIMD_WIDTH) in
      let temp := cmul_simd xl xh ytemp in
      let temp :=
        for_loop 1 B 1 (fun kkk temp =>
          let xl :=
            d_w_dup d (i * B * n_mu + (kkk * n_mu + theta) * (CACHE_LINE_LEN / 2) + ii * 2) in
          let xh :=
            d_w_dup d (i * B * n_mu + (kkk * n_mu + theta) * (CACHE_LINE_LEN / 2) + ii * 2 + 1) in
          let ytemp :=
            _MM_LOAD alpha_ghost (2 * ((j * d_mu + kkk) * S + i) + ii * SIMD_WIDTH) in
          _MM_ADD temp (cmul_simd xl xh ytemp)) temp in
      _MM_STORE g (2 * (v_tmp + i) + ii * SIMD_WIDTH) temp) g) gamma.

(** *** What the kernels are to compute *)

(** Complex product by the real/imaginary decomposition, and complex sum. *)
Definition cmul (w y : cfft_complex_t T) : cfft_complex_t T :=
  (fmsub (fst w) (fst y) (fmul (snd w) (snd y)),
   fmadd (fst w) (snd y) (fmul (snd w) (fst y))).

Definition cadd (a b : cfft_complex_t T) : cfft_complex_t T :=
  (fadd (fst a) (fst b), fadd (snd a) (snd b)).

(** The tap [window[k][theta][s]] as the kernels find it in [w_dup]: the
    element [s] lies in the group of [CACHE_LINE_LEN/2] elements starting at
    [i], in register pair [ii] of that group and in lanes [2t], [2t+1]; the
    first register of the pair carries the real parts, the second the
    imaginary parts. *)
Definition window (k theta s : Z) : cfft_complex_t T :=
  let i := s / 4 * 4 in
  let ii := s mod 4 / 2 in
  let xl := d_w_dup d (i * B * n_mu + (k * n_mu + theta) * 4 + ii * 2) in
  let xh := d_w_dup d (i * B * n_mu + (k * n_mu + theta) * 4 + ii * 2 + 1) in
  if s mod 2 =? 0 then (l0 xl, l0 xh) else (l2 xl, l2 xh).

(** Element [s] of segment [r] of an input laid out as segment index times
    [S]. *)
Definition segment (input : buffer T) (r s : Z) : cfft_complex_t T :=
  cread input (r * S + s).

(** The specification of section 4.2:
    [out[s] = sum over k < B of window[k][theta][s] * input[j*d_mu + k][s]],
    the terms added one after the other from [k = 0] on. *)
Definition conv_spec (input : buffer T) (j theta s : Z) : cfft_complex_t T :=
  fold_left
    (fun acc k => cadd acc (cmul (window k theta s) (segment input (j * d_mu + k) s)))
    (range 1 B 1)
    (cmul (window 0 theta s) (segment input (j * d_mu) s)).

End Kernels.

(** The invariant of the window table that section 3 states: each tap is
    duplicated across the two lanes of the complex number it multiplies. *)
Definition w_dup_duplicated {T} (d : soi_desc_t T) : Prop :=
  forall idx, l1 (d_w_dup d idx) = l0 (d_w_dup d idx) /\
              l3 (d_w_dup d idx) = l2 (d_w_dup d idx).

(** ** The register-blocked kernel of the Local-Only Pass *)

(** [REG_BLOCK_SIZE] of the build without AVX-512, line 122. *)
Definition REG_BLOCK_SIZE : Z := 14.

(** Lines 125-126. *)
Definition THETA_UNROLL_FACTOR (N_MU : Z) : Z :=
  if N_MU <=? REG_BLOCK_SIZE then N_MU else REG_BLOCK_SIZE.

Definition J_UNROLL_FACTOR (N_MU : Z) : Z :=
  if REG_BLOCK_SIZE / THETA_UNROLL_FACTOR N_MU <? 1 then 1
  else REG_BLOCK_SIZE / THETA_UNROLL_FACTOR N_MU.

(** The length of the thread's ring of input segments, line 136. *)
Definition input_buffer_len : Z := 128.

Section Blocked.

Context {T : Type} {F : FloatOps T}.
Variables N_MU D_MU : Z.
Variable d : soi_desc_t T.

Let S := S_ d.
Let B := d_B d.
Let d_mu := d_d_mu d.
Let TU := THETA_UNROLL_FACTOR N_MU.
Let JU := J_UNROLL_FACTOR N_MU.

(** Lines 169-172: the first [B - d_mu] segments of the thread's first row
    group, columns [i .. i+3], go to the start of the ring. *)
Definition fill_input_buffer (alpha_dt : buffer T) (i j_begin : Z)
    (input_buffer : vbuffer T) : vbuffer T :=
  for_loop 0 (u64 (B - d_mu)) 1 (fun k ib =>
    let ib := vset ib (2 * k)
                (_MM_LOAD alpha_dt (2 * ((j_begin * d_mu + k) * S + i))) in
    vset ib (2 * k + 1)
      (_MM_LOAD alpha_dt (2 * ((j_begin * d_mu + k) * S + i) + SIMD_WIDTH)))
    input_buffer.

(** Lines 177-183: the [D_MU*J_UNROLL_FACTOR] segments that row group [j0]
    needs beyond those already in the ring. *)
Definition advance_input_buffer (alpha_dt : buffer T) (i j0 input_buffer_ptr : Z)
    (input_buffer : vbuffer T) : vbuffer T :=
  for_loop 0 (D_MU * JU) 1 (fun k ib =>
    let ib := vset ib ((input_buffer_ptr + B - d_mu + k) mod input_buffer_len * 2)
                (_MM_LOAD alpha_dt (2 * ((j0 * d_mu + B - d_mu + k) * S + i))) in
    vset ib ((input_buffer_ptr + B - d_mu + k) mod input_buffer_len * 2 + 1)
      (_MM_LOAD alpha_dt (2 * ((j0 * d_mu + B - d_mu + k) * S + i) + SIMD_WIDTH)))
    input_buffer.

(** Lines 189-261: the accumulators [temp[j][theta][ii]] of one group of
    [THETA_UNROLL_FACTOR] oversampling indices from [theta_0] on.  The
    unrolled loops over [j] and [theta] assign every element of the register
    arrays [xl], [xh], [ytemp] and [temp] once per value of [kkk]; an array
    is rendered as the function from its indices to the value assigned. *)
Definition blocked_accumulate (input_buffer : vbuffer T) (i input_buffer_ptr theta_0 : Z)
    : Z -> Z -> Z -> SIMDFPTYPE T :=
  let in_ := i * B * N_MU in
  let xl kkk theta ii :=
    d_w_dup d (in_ + (kkk * N_MU + theta_0 + theta) * (CACHE_LINE_LEN / 2) + ii * 2) in
  let xh kkk theta ii :=
    d_w_dup d (in_ + (kkk * N_MU + theta_0 + theta) * (CACHE_LINE_LEN / 2) + ii * 2 + 1) in
  let ytemp kkk j ii :=
    input_buffer ((input_buffer_ptr + j * d_mu + kkk) mod input_buffer_len * 2 + ii) in
  let temp := fun j theta ii =>
    cmul_simd (xl 0 theta ii) (xh 0 theta ii) (ytemp 0 j ii) in
  for_loop 1 B 1 (fun kkk temp => fun j theta ii =>
    _MM_ADD (temp j theta ii)
            (cmul_simd (xl kkk theta ii) (xh kkk theta ii) (ytemp kkk j ii)))
    temp.

(** Lines 263-274: the accumulators are streamed to [gamma_tilde]. *)
Definition blocked_store (temp : Z -> Z -> Z -> SIMDFPTYPE T) (v_tmp theta_0 : Z)
    (gamma : buffer T) : buffer T :=
  for_loop 0 JU 1 (fun j g =>
    for_loop 0 TU 1 (fun theta g =>
      let g := _MM_STREAM g (2 * (v_tmp + S * (j * N_MU + theta_0 + theta)))
                 (temp j theta 0) in
      _MM_STREAM g (2 * (v_tmp + S * (j * N_MU + theta_0 + theta)) + SIMD_WIDTH)
        (temp j theta 1)) g) gamma.

(** Lines 174-286, one step of the loop over row groups: the group of
    [J_UNROLL_FACTOR] rows from [j0] on, columns [i .. i+3].  The state is
    the ring, [input_buffer_ptr] and [gamma_tilde]. *)
Definition blocked_row_group (alpha_dt : buffer T) (i j0 : Z)
    (st : vbuffer T * Z * buffer T) : vbuffer T * Z * buffer T :=
  let '(ib, input_buffer_ptr, gamma) := st in
  let ib := advance_input_buffer alpha_dt i j0 input_buffer_ptr ib in
  let v_tmp := S * j0 * N_MU + i in
  let gamma :=
    for_loop 0 N_MU TU (fun theta_0 g =>
      blocked_store (blocked_accumulate ib i input_buffer_ptr theta_0)
                    v_tmp theta_0 g) gamma in
  (ib, (input_buffer_ptr + d_mu * JU) mod input_buffer_len, gamma).

(** Lines 168-286, one step of the loop over columns: the ring is filled,
    [input_buffer_ptr] reset, and the row groups of the thread follow. *)
Definition blocked_column (alpha_dt : buffer T) (j_begin j_end i : Z)
    (st : vbuffer T * buffer T) : vbuffer T * buffer T :=
  let ib := fill_input_buffer alpha_dt i j_begin (fst st) in
  let r := for_loop j_begin j_end JU (blocked_row_group alpha_dt i) (ib, 0, snd st) in
  (fst (fst r), snd r).

(** Lines 167-287: the convolution loop of a thread that owns the columns
    [i_begin .. i_end) and the rows [j_begin .. j_end).  The state is the
    thread's [input_buffer] and [gamma_tilde]. *)
Definition conv_blocked (alpha_dt : buffer T) (i_begin i_end j_begin j_end : Z)
    (st : vbuffer T * buffer T) : vbuffer T * buffer T :=
  for_loop i_begin i_end (CACHE_LINE_LEN / 2) (blocked_column alpha_dt j_begin j_end) st.

End Blocked.

(** ** The transform call and the Transpose/Scatter Step *)

Section Transpose.

Context {T : Type} {F : FloatOps T}.
Variable d : soi_desc_t T.

Let S := S_ d.
Let n_mu := d_n_mu d.

(** [DftiComputeForward(d->desc_dft_s, gamma_tilde + base)]: the [S] complex
    numbers at [base] are replaced by their transform; a position the
    transform returns no value for keeps its content. *)
Definition DftiComputeForward (base : Z) (gamma : buffer T) : buffer T :=
  let blk := d_desc_dft_s d (fun i => cread gamma (base + i)) in
  fun a =>
    let c := a / 2 in
    if (base <=? c) && (c <? base + S)
    then (if a mod 2 =? 0 then fst (blk (c - base)) else snd (blk (c - base)))
    else gamma a.

(** The scalar copy of one block, lines 434-439 (and the inner loop of lines
    387-394): element [s] of the block at [src] goes to
    [alpha_tilde[s*l + col]]. *)
Definition scatter_block (src col : Z) (gamma alpha_tilde : buffer T) : buffer T :=
  for_loop 0 S 1 (fun s at_ =>
    let l := l_ d in
    cwrite at_ (s * l + col) (cread gamma (src + s))) alpha_tilde.

(** Lines 387-394: the scalar transpose of row [j], all [n_mu] blocks. *)
Definition transpose_scalar (j : Z) (gamma alpha_tilde : buffer T) : buffer T :=
  for_loop 0 n_mu 1 (fun theta at_ =>
    scatter_block (S * (j * n_mu + theta)) (j * n_mu + theta) gamma at_) alpha_tilde.

(** Lines 324-379: sixteen loads from the eight blocks of a row at [in_],
    sixteen lane shuffles, and sixteen stores to four lines of [alpha_tilde]
    at [out]. *)
Definition transpose_avx_step (in_ out : Z) (gamma at_ : buffer T) : buffer T :=
  let l := l_ d in
  let a11 := _MM_LOAD gamma (2 * in_) in
  let a21 := _MM_LOAD gamma (2 * (in_ + 2)) in
  let a12 := _MM_LOAD gamma (2 * (in_ + 1 * S)) in
  let a22 := _MM_LOAD gamma (2 * (in_ + 1 * S + 2)) in
  let a31 := _MM_LOAD gamma (2 * (in_ + 2 * S)) in
  let a41 := _MM_LOAD gamma (2 * (in_ + 2 * S + 2)) in
  let a32 := _MM_LOAD gamma (2 * (in_ + 3 * S)) in
  let a42 := _MM_LOAD gamma (2 * (in_ + 3 * S + 2)) in
  let a51 := _MM_LOAD gamma (2 * (in_ + 4 * S)) in
  let a61 := _MM_LOAD gamma (2 * (in_ + 4 * S + 2)) in
  let a52 := _MM_LOAD gamma (2 * (in_ + 5 * S)) in
  let a62 := _MM_LOAD gamma (2 * (in_ + 5 * S + 2)) in
  let a71 := _MM_LOAD gamma (2 * (in_ + 6 * S)) in
  let a81 := _MM_LOAD gamma (2 * (in_ + 6 * S + 2)) in
  let a72 := _MM_LOAD gamma (2 * (in_ + 7 * S)) in
  let a82 := _MM_LOAD gamma (2 * (in_ + 7 * S + 2)) in
  let b11 := _mm256_insertf128_pd a11 (_mm256_castpd256_pd128 a12) 1 in
  let b12 := _mm256_permute2f128_pd a11 a12 49 in
  let b21 := _mm256_insertf128_pd a21 (_mm256_castpd256_pd128 a22) 1 in
  let b22 := _mm256_permute2f128_pd a21 a22 49 in
  let b31 := _mm256_insertf128_pd a31 (_mm256_castpd256_pd128 a32) 1 in
  let b32 := _mm256_permute2f128_pd a31 a32 49 in
  let b41 := _mm256_insertf128_pd a41 (_mm256_castpd256_pd128 a42) 1 in
  let b42 := _mm256_permute2f128_pd a41 a42 49 in
  let b51 := _mm256_insertf128_pd a51 (_mm256_castpd256_pd128 a52) 1 in
  let b52 := _mm256_permute2f128_pd a51 a52 49 in
  let b61 := _mm256_insertf128_pd a61 (_mm256_castpd256_pd128 a62) 1 in
  let b62 := _mm256_permute2f128_pd a61 a62 49 in
  let b71 := _mm256_insertf128_pd a71 (_mm256_castpd256_pd128 a72) 1 in
  let b72 := _mm256_permute2f128_pd a71 a72 49 in
  let b81 := _mm256_insertf128_pd a81 (_mm256_castpd256_pd128 a82) 1 in
  let b82 := _mm256_permute2f128_pd a81 a82 49 in
  let at_ := _MM_STREAM at_ (2 * out) b11 in
  let at_ := _MM_STREAM at_ (2 * (out + 2)) b31 in
  let at_ := _MM_STREAM at_ (2 * (out + 4)) b51 in
  let at_ := _MM_STREAM at_ (2 * (out + 6)) b71 in
  let at_ := _MM_STREAM at_ (2 * (out + l)) b12 in
  let at_ := _MM_STREAM at_ (2 * (out + l + 2)) b32 in
  let at_ := _MM_STREAM at_ (2 * (out + l + 4)) b52 in
  let at_ := _MM_STREAM at_ (2 * (out + l + 6)) b72 in
  let at_ := _MM_STREAM at_ (2 * (out + 2 * l)) b21 in
  let at_ := _MM_STREAM at_ (2 * (out + 2 * l + 2)) b41 in
  let at_ := _MM_STREAM at_ (2 * (out + 2 * l + 4)) b61 in
  let at_ := _MM_STREAM at_ (2 * (out + 2 * l + 6)) b81 in
  let at_ := _MM_STREAM at_ (2 * (out + 3 * l)) b22 in
  let at_ := _MM_STREAM at_ (2 * (out + 3 * l + 2)) b42 in
  let at_ := _MM_STREAM at_ (2 * (out + 3 * l + 4)) b62 in
  _MM_STREAM at_ (2 * (out + 3 * l + 6)) b82.

(** Lines 318-382: the transpose of row [j] in registers, taken when
    [8 == N_MU]. *)
Definition transpose_avx (j : Z) (gamma alpha_tilde : buffer T) : buffer T :=
  let v_tmp := S * j * n_mu in
  for_loop (j * n_mu) ((j + 1) * n_mu / SIMD_WIDTH * SIMD_WIDTH) (2 * SIMD_WIDTH)
    (fun jj at_ =>
    for_loop 0 S SIMD_WIDTH (fun s at_ =>
      transpose_avx_step (v_tmp + S * (jj - j * n_mu) + s) (s * l_ d + jj) gamma at_)
      at_) alpha_tilde.

End Transpose.

(** ** Processes, messages and the stage as a whole *)

(** The three messages the stage writes to [stderr]. *)
Inductive diagnostic : Type :=
| InputSizeTooSmall               (* "input size too small" *)
| TooFewThreads (groups : Z)      (* "OMP_NUM_THREADS should be greater than equal to %d. ..." *)
| UnsupportedRatio.               (* "Unsupported n_mu and d_mu. ..." *)

(** What a process does besides arithmetic, in program order. *)
Inductive event : Type :=
| EvMemcpy (dst_off src_off count : Z)   (* memcpy into alpha_ghost, in VAL_TYPE *)
| EvIrecv (src off count : Z)            (* MPI_Irecv into alpha_ghost + off *)
| EvIsend (dst count : Z)                (* MPI_Isend of the head of alpha_dt *)
| EvLocalPass                            (* the parallel region *)
| EvWaitRecv                             (* MPI_Wait(&request_receive) *)
| EvBoundaryPass
| EvWaitSend.                            (* MPI_Wait(&request_send) *)

(** The buffers of one process that the stage writes, what it printed to
    [stderr], and what it did so far. *)
Record proc_state (T : Type) := {
  gamma_tilde : buffer T;
  alpha_tilde : buffer T;
  alpha_ghost : buffer T;
  stderr : list diagnostic;
  trace : list event
}.

(** A message in flight: [msg_data] is the content of the send buffer. *)
Record message (T : Type) := {
  msg_src : Z;
  msg_dst : Z;
  msg_tag : Z;
  msg_data : list T
}.

(** A pending receive: the source, the tag, and where the data is to go. *)
Record recv_request := {
  rq_src : Z;
  rq_tag : Z;
  rq_off : Z;
  rq_count : Z
}.

(** The process group: the state of every rank and the messages sent and not
    yet received, oldest first. *)
Record world (T : Type) := {
  procs : Z -> proc_state T;
  network : list (message T)
}.

(** How a call of the stage ends on one process. *)
Inductive outcome (A : Type) : Type :=
| Returned (w : A)              (* normal return *)
| Exited (code : Z) (w : A)     (* exit(code) *)
| Aborted (w : A)               (* a failed assert *)
| Blocked (w : A)               (* MPI_Wait on a message nobody sent yet *)
| Undefined.                    (* integer division by zero *)

Arguments Undefined {A}.

(** The build and run-time environment of the OpenMP region:
    [omp_get_max_threads()], whether asserts are compiled out, and the
    content of the uninitialised [input_buffer] of a thread. *)
Record omp_env (T : Type) := {
  nthreads : Z;
  NDEBUG : bool;
  stack_garbage : vbuffer T
}.

Definition MIN (a b : Z) : Z := if a <? b then a else b.

Section Process.

Context {T : Type}.

Definition set_proc (w : world T) (r : Z) (p : proc_state T) : world T :=
  {| procs := fun q => if q =? r then p else procs w q; network := network w |}.

Definition log_stderr (p : proc_state T) (m : diagnostic) : proc_state T :=
  {| gamma_tilde := gamma_tilde p; alpha_tilde := alpha_tilde p;
     alpha_ghost := alpha_ghost p; stderr := stderr p ++ [m];
     trace := trace p |}.

Definition log_event (p : proc_state T) (e : event) : proc_state T :=
  {| gamma_tilde := gamma_tilde p; alpha_tilde := alpha_tilde p;
     alpha_ghost := alpha_ghost p; stderr := stderr p;
     trace := trace p ++ [e] |}.

Definition set_ghost (p : proc_state T) (g : buffer T) : proc_state T :=
  {| gamma_tilde := gamma_tilde p; alpha_tilde := alpha_tilde p;
     alpha_ghost := g; stderr := stderr p; trace := trace p |}.

Definition set_output (p : proc_state T) (gt : buffer T * buffer T) : proc_state T :=
  {| gamma_tilde := fst gt; alpha_tilde := snd gt;
     alpha_ghost := alpha_ghost p; stderr := stderr p; trace := trace p |}.

(** [memcpy(dst + dst_off, src + src_off, count)], in [VAL_TYPE] units. *)
Definition memcpy (dst : buffer T) (dst_off : Z) (src : buffer T) (src_off count : Z)
    : buffer T :=
  fun a => if (dst_off <=? a) && (a <? dst_off + count)
           then src (src_off + (a - dst_off)) else dst a.

(** The [count] elements of [m] from [off] on. *)
Definition snapshot (m : buffer T) (off count : Z) : list T :=
  map (fun i => m (off + i)) (range 0 count 1).

(** [data] written to [m] from [off] on. *)
Definition blit (m : buffer T) (off : Z) (data : list T) : buffer T :=
  fun a => if (off <=? a) && (a <? off + Z.of_nat (length data))
           then nth (Z.to_nat (a - off)) data (m a) else m a.

(** [MPI_Isend(buf, count, MPI_TYPE, dest, tag, comm, &request)] by [rank]:
    the message joins the network.  The send buffer is [alpha_dt], which the
    stage never writes, so its content at the call is what is delivered. *)
Definition MPI_Isend (rank : Z) (buf : buffer T) (count dest tag : Z) (w : world T)
    : world T :=
  {| procs := procs w;
     network := network w ++
       [{| msg_src := rank; msg_dst := dest; msg_tag := tag;
           msg_data := snapshot buf 0 count |}] |}.

(** [MPI_Irecv(alpha_ghost + off, count, MPI_TYPE, source, tag, comm,
    &request)]: nothing moves yet, the request remembers the call. *)
Definition MPI_Irecv (off count source tag : Z) : recv_request :=
  {| rq_src := source; rq_tag := tag; rq_off := off; rq_count := count |}.

Definition matches (rank : Z) (rq : recv_request) (m : message T) : bool :=
  (msg_src m =? rq_src rq) && (msg_dst m =? rank) && (msg_tag m =? rq_tag rq).

(** The oldest message of [net] that [rq] matches, and [net] without it. *)
Fixpoint take_message (rank : Z) (rq : recv_request) (net : list (message T))
    : option (message T * list (message T)) :=
  match net with
  | [] => None
  | m :: net' =>
      if matches rank rq m then Some (m, net')
      else match take_message rank rq net' with
           | Some (m', rest) => Some (m', m :: rest)
           | None => None
           end
  end.

(** [MPI_Wait(&request_receive, MPI_STATUS_IGNORE)] by [rank]: the matching
    message, at most [rq_count] elements of it, lands in [alpha_ghost]; with
    no such message in the network the call does not return. *)
Definition MPI_Wait_recv (rank : Z) (rq : recv_request) (w : world T)
    : option (world T) :=
  match take_message rank rq (network w) with
  | None => None
  | Some (m, rest) =>
      let p := procs w rank in
      let data := firstn (Z.to_nat (rq_count rq)) (msg_data m) in
      Some {| procs := fun q =>
                if q =? rank
                then set_ghost p (blit (alpha_ghost p) (rq_off rq) data)
                else procs w q;
              network := rest |}
  end.

End Process.

Section Stage.

Context {T : Type} {F : FloatOps T}.
Variables N_MU D_MU : Z.
Variable env : omp_env T.
Variable d : soi_desc_t T.
Variable alpha_dt : buffer T.

Let P := d_P d.
Let rank := d_rank d.
Let S := S_ d.
Let B := d_B d.
Let n_mu := d_n_mu d.
Let d_mu := d_d_mu d.
Let JU := J_UNROLL_FACTOR N_MU.

(** *** The ghost exchange, lines 101-108 *)

(** The receive request that line 105 creates. *)
Definition request_receive : recv_request :=
  MPI_Irecv (2 * addr_start d) (u64 (n_elements d * 2)) (PID_right d) 0.

Definition ghost_issue (w : world T) : world T :=
  let p := procs w rank in
  let p := set_ghost p
             (memcpy (alpha_ghost p) 0 alpha_dt (2 * (K_0 d * d_mu * S))
                     (2 * u64 (b_cnt d * S))) in
  let p := log_event p (EvMemcpy 0 (2 * (K_0 d * d_mu * S)) (2 * u64 (b_cnt d * S))) in
  let p := log_event p
             (EvIrecv (rq_src request_receive) (rq_off request_receive)
                      (rq_count request_receive)) in
  let w := set_proc w rank p in
  let w := MPI_Isend rank alpha_dt (u64 (n_elements d * 2)) (PID_left d) 0 w in
  set_proc w rank
    (log_event (procs w rank) (EvIsend (PID_left d) (u64 (n_elements d * 2)))).

(** *** The partition of the Local-Only Pass among threads, lines 128-163 *)

Definition num_thread_groups : Z := MIN (S / (CACHE_LINE_LEN / 2)) 8.
Definition threads_per_group : Z := nthreads env / num_thread_groups.
Definition thread_group (threadid : Z) : Z := threadid / threads_per_group.
Definition i_per_thread_group : Z := S / num_thread_groups.
Definition i_begin (threadid : Z) : Z :=
  MIN (thread_group threadid * i_per_thread_group) S.
Definition i_end (threadid : Z) : Z :=
  MIN (i_begin threadid + i_per_thread_group) S.
Definition group_local_thread_id (threadid : Z) : Z :=
  threadid mod threads_per_group.

(** [end = K_0/J_UNROLL_FACTOR*J_UNROLL_FACTOR], line 159. *)
Definition end_ : Z := K_0 d / JU * JU.

(** The rows of a thread in the convolution loop, lines 160-163. *)
Definition j_per_thread : Z :=
  ((end_ + nthreads env - 1) / threads_per_group + JU - 1) / JU * JU.
Definition j_begin (threadid : Z) : Z :=
  MIN (j_per_thread * group_local_thread_id threadid) end_.
Definition j_end (threadid : Z) : Z :=
  MIN (j_begin threadid + j_per_thread) end_.

(** The rows of a thread in the transform and transpose loop, lines
    293-295. *)
Definition j_per_thread_fft : Z := (end_ + nthreads env - 1) / nthreads env.
Definition j_begin_fft (threadid : Z) : Z :=
  MIN (j_per_thread_fft * threadid) end_.
Definition j_end_fft (threadid : Z) : Z :=
  MIN (j_begin_fft threadid + j_per_thread_fft) end_.

(** *** The Local-Only Pass, lines 134-454

    The threads of the region write disjoint parts of the buffers; they are
    run one after the other, in the order of their ids. *)

(** Lines 167-287, every thread. *)
Definition conv_phase (gamma : buffer T) : buffer T :=
  for_loop 0 (nthreads env) 1 (fun threadid g =>
    snd (conv_blocked N_MU D_MU d alpha_dt
           (i_begin threadid) (i_end threadid)
           (j_begin threadid) (j_end threadid)
           (stack_garbage env, g))) gamma.

(** Lines 297-401 for one row: the transform of its blocks, then the
    transpose, in registers when [8 == N_MU]. *)
Definition fft_transpose_row (j : Z) (st : buffer T * buffer T) : buffer T * buffer T :=
  let v_tmp := S * j * n_mu in
  let gamma :=
    for_loop 0 N_MU 1 (fun theta g => DftiComputeForward d (v_tmp + S * theta) g)
      (fst st) in
  (gamma,
   if 8 =? N_MU then transpose_avx d j gamma (snd st)
   else transpose_scalar d j gamma (snd st)).

(** Lines 293-401, every thread, after the barrier. *)
Definition fft_phase (st : buffer T * buffer T) : buffer T * buffer T :=
  for_loop 0 (nthreads env) 1 (fun threadid st =>
    for_loop (j_begin_fft threadid) (j_end_fft threadid) 1 fft_transpose_row st) st.

(** Lines 403-446: the rows the unrolled loop left over. *)
Definition remainder_phase (st : buffer T * buffer T) : buffer T * buffer T :=
  for_loop (K_0 d / JU * JU) (K_0 d) 1 (fun j st =>
    for_loop 0 n_mu 1 (fun theta (st : buffer T * buffer T) =>
      let gamma := conv_remainder d alpha_dt j theta (fst st) in
      let gamma := DftiComputeForward d (S * (j * n_mu + theta)) gamma in
      (gamma,
       scatter_block d (S * (j * n_mu + theta)) (j * n_mu + theta) gamma (snd st)))
      st) st.

Definition local_pass (st : buffer T * buffer T) : buffer T * buffer T :=
  remainder_phase (fft_phase (conv_phase (fst st), snd st)).

(** *** The Boundary Pass, lines 496-524 *)

Definition boundary_pass (ghost : buffer T) (st : buffer T * buffer T)
    : buffer T * buffer T :=
  for_loop 0 (u64 (rows d - K_0 d)) 1 (fun j st =>
    for_loop 0 n_mu 1 (fun theta (st : buffer T * buffer T) =>
      let v_tmp := (K_0 d * n_mu + j * n_mu + theta) * S in
      let gamma := conv_boundary d ghost j theta (fst st) in
      let gamma := DftiComputeForward d v_tmp gamma in
      (gamma, scatter_block d v_tmp ((K_0 d + j) * n_mu + theta) gamma (snd st)))
      st) st.

(** *** The stage for one pair [N_MU], [D_MU], lines 52-527 *)

(** From the wait for the ghost data to the return, lines 483-526. *)
Definition finish_stage (w : world T) : outcome (world T) :=
  match MPI_Wait_recv rank request_receive w with
  | None => Blocked w
  | Some w =>
      let p := log_event (procs w rank) EvWaitRecv in
      if u64 (P * n_mu) =? 0 then Undefined
      else
        let p := set_output p
                   (boundary_pass (alpha_ghost p) (gamma_tilde p, alpha_tilde p)) in
        let p := log_event p EvBoundaryPass in
        let p := log_event p EvWaitSend in
        Returned (set_proc w rank p)
  end.

(** From the entry to the end of the parallel region, lines 55-459.  A
    division by zero is undefined behaviour and ends the model's run. *)
Definition start_stage (w : world T) : outcome (world T) :=
  if P =? 0 then Undefined
  else if S =? 0 then Undefined
  else if d_mu =? 0 then Undefined
  else if M_ d / P <? B then
    Exited 0
      (if 0 =? rank
       then set_proc w rank (log_stderr (procs w rank) InputSizeTooSmall)
       else w)
  else
    let w := ghost_issue w in
    if (0 =? rank) && (nthreads env <? num_thread_groups) then
      Exited (-1)
        (set_proc w rank (log_stderr (procs w rank) (TooFewThreads num_thread_groups)))
    else if num_thread_groups =? 0 then Undefined
    else if threads_per_group =? 0 then Undefined
    else if negb (NDEBUG env) && negb (nthreads env mod num_thread_groups =? 0) then
      Aborted w
    else if negb (NDEBUG env) && negb (S mod num_thread_groups =? 0) then
      Aborted w
    else
      let p := procs w rank in
      let p := set_output p (local_pass (gamma_tilde p, alpha_tilde p)) in
      let p := log_event p EvLocalPass in
      Returned (set_proc w rank p).

Definition parallel_filter_subsampling_tmpl (w : world T) : outcome (world T) :=
  match start_stage w with
  | Returned w => finish_stage w
  | other => other
  end.

End Stage.

(** ** The dispatch on the oversampling ratio, lines 534-550 *)

Definition parallel_filter_subsampling {T} {F : FloatOps T}
    (env : omp_env T) (d : soi_desc_t T) (alpha_dt : buffer T) (w : world T)
    : outcome (world T) :=
  if (5 =? d_n_mu d) && (4 =? d_d_mu d) then
    parallel_filter_subsampling_tmpl 5 4 env d alpha_dt w
  else if (8 =? d_n_mu d) && (7 =? d_d_mu d) then
    parallel_filter_subsampling_tmpl 8 7 env d alpha_dt w
  else
    Exited (-1)
      (if 0 =? d_rank d
       then set_proc w (d_rank d) (log_stderr (procs w (d_rank d)) UnsupportedRatio)
       else w).

(** ** What a piece of code writes

    A store loop is summarised by the partial map from the addresses it
    writes to the values it leaves there. *)

Section Writes.

Context {T : Type}.

Definition overlay (W : Z -> option T) (g : buffer T) : buffer T :=
  fun a => match W a with Some v => v | None => g a end.

(** [F] writes exactly [W], whatever the buffer held before. *)
Definition writes (F : buffer T -> buffer T) (W : Z -> option T) : Prop :=
  forall g a, F g a = overlay W g a.

Definition store_write (p : Z) (v : SIMDFPTYPE T) : Z -> option T :=
  fun a => if a =? p then Some (l0 v)
           else if a =? p + 1 then Some (l1 v)
           else if a =? p + 2 then Some (l2 v)
           else if a =? p + 3 then Some (l3 v)
           else None.

Definition cwrite_write (c : Z) (v : cfft_complex_t T) : Z -> option T :=
  fun a => if a =? 2 * c then Some (fst v)
           else if a =? 2 * c + 1 then Some (snd v)
           else None.

Definition then_write (W1 W2 : Z -> option T) : Z -> option T :=
  fun a => match W2 a with Some v => Some v | None => W1 a end.

(** What a loop leaves at [a] when iteration [i] writes [W i]: the value of
    the last iteration that writes [a]. *)
Fixpoint last_write {A} (W : A -> Z -> option T) (l : list A) (a : Z) : option T :=
  match l with
  | [] => None
  | i :: l' =>
      match last_write W l' a with
      | Some v => Some v
      | None => W i a
      end
  end.

(** The complex number in lanes [2t], [2t+1] of a register. *)
Definition clane (t : Z) (v : SIMDFPTYPE T) : cfft_complex_t T :=
  if t =? 0 then (l0 v, l1 v) else (l2 v, l3 v).

(** The tap that multiplies the complex number in lanes [2t], [2t+1]: its
    real part from the first register of the pair, its imaginary part from
    the second. *)
Definition tap (t : Z) (xl xh : SIMDFPTYPE T) : cfft_complex_t T :=
  if t =? 0 then (l0 xl, l0 xh) else (l2 xl, l2 xh).

End Writes.

(** ** Blocks and the order in which they are scattered *)

(** A block of the output: row [j], oversampling index [theta], and the
    content of [gamma_tilde] at the time the block is scattered. *)
Definition block (T : Type) := (Z * Z * buffer T)%type.

Definition block_col {T} (d : soi_desc_t T) (b : block T) : Z :=
  fst (fst b) * d_n_mu d + snd (fst b).

(** The row and the oversampling index of [b] are those of an output block
    of the process. *)
Definition block_in_range {T} (d : soi_desc_t T) (b : block T) : Prop :=
  0 <= fst (fst b) < rows d /\ 0 <= snd (fst b) < d_n_mu d.

(** The blocks of [bs] scattered one after the other. *)
Definition scatter_blocks {T} (d : soi_desc_t T) (bs : list (block T))
    (alpha_tilde : buffer T) : buffer T :=
  fold_left
    (fun at_ b => scatter_block d (S_ d * block_col d b) (block_col d b) (snd b) at_)
    bs alpha_tilde.

(** What the scalar copy of one block writes. *)
Definition scatter_write {T} (d : soi_desc_t T) (src col : Z) (gamma : buffer T)
    : Z -> option T :=
  last_write (fun s => cwrite_write (s * l_ d + col) (cread gamma (src + s)))
             (range 0 (S_ d) 1).

(** What a sequence of block scatters writes. *)
Definition blocks_write {T} (d : soi_desc_t T) (bs : list (block T)) : Z -> option T :=
  last_write
    (fun b : block T => scatter_write d (S_ d * block_col d b) (block_col d b) (snd b))
    bs.

(** *** The stores of one step of the register transpose *)

(** Line [k] of the four lines and register [m] of the four registers of a
    line, in the order of the stores. *)
Definition avx_pairs : list (Z * Z) :=
  flat_map (fun k => map (fun m => (k, m)) (range 0 4 1)) (range 0 4 1).

(** The register stored at line [k], position [m]: element [k] of the blocks
    [2m] and [2m+1] of the row. *)
Definition avx_vec {T} (d : soi_desc_t T) (gamma : buffer T) (in_ k m : Z)
    : SIMDFPTYPE T :=
  let c0 := cread gamma (in_ + 2 * m * S_ d + k) in
  let c1 := cread gamma (in_ + (2 * m + 1) * S_ d + k) in
  mkv (fst c0) (snd c0) (fst c1) (snd c1).

Definition avx_stores {T} (d : soi_desc_t T) (gamma : buffer T) (in_ out : Z)
    : list (Z * SIMDFPTYPE T) :=
  map (fun km => (2 * (out + fst km * l_ d + 2 * snd km),
                  avx_vec d gamma in_ (fst km) (snd km)))
      avx_pairs.

(** Component [r] of a complex number: 0 the real part, else the imaginary
    part. *)
Definition comp {T} (r : Z) (c : cfft_complex_t T) : T :=
  if r =? 0 then fst c else snd c.

(** What one step of the register transpose writes. *)
Definition avx_step_write {T} (d : soi_desc_t T) (in_ out : Z) (gamma : buffer T)
    : Z -> option T :=
  last_write (fun ps => store_write (fst ps) (snd ps)) (avx_stores d gamma in_ out).

(** What the scalar transpose of row [j] writes: its blocks, in the order of
    their oversampling indices. *)
Definition transpose_write {T} (d : soi_desc_t T) (j : Z) (gamma : buffer T)
    : Z -> option T :=
  blocks_write d (map (fun theta => (j, theta, gamma)) (range 0 (d_n_mu d) 1)).

(** What the loop of the register transpose writes for row [j] when
    [n_mu = 8]: the loop over [jj] then has the single iteration
    [jj = j*n_mu]. *)
Definition avx_write {T} (d : soi_desc_t T) (j : Z) (gamma : buffer T)
    : Z -> option T :=
  last_write
    (fun s => avx_step_write d (S_ d * j * 8 + S_ d * (j * 8 - j * 8) + s)
                (s * l_ d + j * 8) gamma)
    (range 0 (S_ d) 4).

(** ** The rows of the two passes *)

Section Rows.

Context {T : Type}.
Variable N_MU : Z.
Variable env : omp_env T.
Variable d : soi_desc_t T.

(** The rows that the threads transform and transpose after the barrier
    (lines 293-401), thread after thread. *)
Definition fft_rows : list Z :=
  flat_map (fun threadid =>
              range (j_begin_fft N_MU env d threadid) (j_end_fft N_MU env d threadid) 1)
           (range 0 (nthreads env) 1).

(** The rows of the loop of lines 403-446. *)
Definition remainder_rows : list Z :=
  range (K_0 d / J_UNROLL_FACTOR N_MU * J_UNROLL_FACTOR N_MU) (K_0 d) 1.

(** The rows the Local-Only Pass produces. *)
Definition local_rows : list Z := fft_rows ++ remainder_rows.

(** The rows the Boundary Pass produces: iteration [j] of line 497 is row
    [K_0 + j]. *)
Definition boundary_rows : list Z :=
  map (fun j => K_0 d + j) (range 0 (u64 (rows d - K_0 d)) 1).

End Rows.

(** Sizes the stage accepts: positive process count and oversampling ratio,
    at least [B] segments per process, products that fit [size_t], and a
    number of segments per process that a [double] holds exactly. *)
Definition valid_sizes {T} (d : soi_desc_t T) : Prop :=
  0 < d_P d /\ 0 < d_n_mu d /\ 0 < d_d_mu d /\ 0 <= d_N d /\
  0 <= d_B d <= M_ d / d_P d /\ M_ d / d_P d < 2 ^ 53 /\
  d_P d * d_n_mu d < 2 ^ 64 /\ d_n_mu d * M_ d < 2 ^ 64.

(** A configuration the stage accepts: such sizes and at least one thread. *)
Definition valid_config {T} (env : omp_env T) (d : soi_desc_t T) : Prop :=
  valid_sizes d /\ 0 < nthreads env.

(** ** The ring of processes *)

Section Ring.

Context {T : Type}.

(** The descriptor of every process but for the rank. *)
Variable d0 : soi_desc_t T.

(** The local input slice of every rank. *)
Variable alphas : Z -> buffer T.

Definition desc_of (r : Z) : soi_desc_t T :=
  {| d_P := d_P d0; d_rank := r; d_k := d_k d0; d_N := d_N d0;
     d_n_mu := d_n_mu d0; d_d_mu := d_d_mu d0; d_B := d_B d0;
     d_w_dup := d_w_dup d0; d_desc_dft_s := d_desc_dft_s d0 |}.

(** The ranks of [sched] go through lines 101-108 one after the other. *)
Definition issue_all (sched : list Z) (w : world T) : world T :=
  fold_left (fun w r => ghost_issue (desc_of r) (alphas r) w) sched w.

(** What a rank has done to its own state when it has gone through lines
    101-108. *)
Definition issue_proc (r : Z) (p : proc_state T) : proc_state T :=
  let d := desc_of r in
  let p := set_ghost p
             (memcpy (alpha_ghost p) 0 (alphas r) (2 * (K_0 d * d_d_mu d * S_ d))
                     (2 * u64 (b_cnt d * S_ d))) in
  let p := log_event p
             (EvMemcpy 0 (2 * (K_0 d * d_d_mu d * S_ d)) (2 * u64 (b_cnt d * S_ d))) in
  let p := log_event p
             (EvIrecv (PID_right d) (2 * addr_start d) (u64 (n_elements d * 2))) in
  log_event p (EvIsend (PID_left d) (u64 (n_elements d * 2))).

(** The message a rank sends at line 107. *)
Definition issue_message (r : Z) : message T :=
  let d := desc_of r in
  {| msg_src := r; msg_dst := PID_left d; msg_tag := 0;
     msg_data := snapshot (alphas r) 0 (u64 (n_elements d * 2)) |}.

End Ring.

(** The filter is at least as long as the advance of a row, the local slice
    counted in [VAL_TYPE] fits [size_t], and the ranks fit the [int] that MPI
    uses for them. *)
Definition ghost_fits {T} (d : soi_desc_t T) : Prop :=
  d_d_mu d <= d_B d /\ 2 * (M_ d / d_P d * S_ d) < 2 ^ 64 /\ d_P d < 2 ^ 31.

(** ** Fatal configuration errors *)

(** The buffers of the process are left as they were, and the process
    neither communicated nor computed. *)
Definition untouched {T} (p p' : proc_state T) : Prop :=
  gamma_tilde p' = gamma_tilde p /\ alpha_tilde p' = alpha_tilde p /\
  alpha_ghost p' = alpha_ghost p /\ trace p' = trace p.

(** The process of rank [rank] refused to run: no message was sent, no other
    process was touched, its own buffers are untouched, and [msg] went to
    its [stderr] once if it is the coordinating process (rank 0), not at all
    otherwise. *)
Definition refused {T} (rank : Z) (msg : diagnostic) (w w' : world T) : Prop :=
  network w' = network w /\
  (forall q, q <> rank -> procs w' q = procs w q) /\
  untouched (procs w rank) (procs w' rank) /\
  stderr (procs w' rank) = stderr (procs w rank) ++ (if rank =? 0 then [msg] else []).

(** The ratio is one of the two the dispatch knows. *)
Definition supported_ratio {T} (d : soi_desc_t T) : Prop :=
  (d_n_mu d = 5 /\ d_d_mu d = 4) \/ (d_n_mu d = 8 /\ d_d_mu d = 7).

(** ** The register-blocked kernel: what it is to leave in memory *)

Definition vset_write {T} (i : Z) (v : SIMDFPTYPE T) : Z -> option (SIMDFPTYPE T) :=
  fun a => if a =? i then Some v else None.

(** The two registers of columns [i .. i+3] of segment [row]. *)
Definition seg_load {T} (d : soi_desc_t T) (alpha_dt : buffer T) (i row ii : Z)
    : SIMDFPTYPE T :=
  _MM_LOAD alpha_dt (2 * (row * S_ d + i) + ii * SIMD_WIDTH).

(** The ring holds the segments [j0*d_mu .. j0*d_mu + n) from slot
    [input_buffer_ptr] on. *)
Definition ring_holds {T} (d : soi_desc_t T) (alpha_dt : buffer T) (i j0 n : Z)
    (input_buffer_ptr : Z) (ib : vbuffer T) : Prop :=
  0 <= input_buffer_ptr < input_buffer_len /\
  forall k ii, 0 <= k < n -> 0 <= ii < 2 ->
    ib ((input_buffer_ptr + k) mod input_buffer_len * 2 + ii)
    = seg_load d alpha_dt i (j0 * d_d_mu d + k) ii.

(** The value that the convolution is to leave at offset [a] of
    [gamma_tilde], counted in [VAL_TYPE]: [a] is component [a mod 2] of
    element [c mod S] of block [c / S], [c = a / 2], and block [b] is that of
    row [b / n_mu] and oversampling index [b mod n_mu]. *)
Definition cell_val {T} {F : FloatOps T} (d : soi_desc_t T) (alpha_dt : buffer T)
    (a : Z) : T :=
  let c := a / 2 in
  let b := c / S_ d in
  comp (a mod 2)
       (conv_spec d alpha_dt (b / d_n_mu d) (b mod d_n_mu d) (c mod S_ d)).

(** The offset in [gamma_tilde] of component [r] of element [s] of the block
    of row [row] and oversampling index [theta]. *)
Definition cell_addr {T} (d : soi_desc_t T) (row theta s r : Z) : Z :=
  2 * (S_ d * (row * d_n_mu d + theta) + s) + r.

(** What the two assignments of one step of a ring loop write: the two
    registers of segment [row] go to slot [slot]. *)
Definition ring_step_write {T} (d : soi_desc_t T) (alpha_dt : buffer T) (i slot row : Z)
    : Z -> option (SIMDFPTYPE T) :=
  then_write (vset_write (slot * 2) (seg_load d alpha_dt i row 0))
             (vset_write (slot * 2 + 1) (seg_load d alpha_dt i row 1)).

(** What lines 267-272 write for one accumulator pair: two registers, the
    second [SIMD_WIDTH] further. *)
Definition store_pair_write {T} (p : Z) (v0 v1 : SIMDFPTYPE T) : Z -> option T :=
  then_write (store_write p v0) (store_write (p + SIMD_WIDTH) v1).

(** What lines 263-274 write. *)
Definition blocked_store_write {T} (N_MU : Z) (d : soi_desc_t T)
    (temp : Z -> Z -> Z -> SIMDFPTYPE T) (v_tmp theta_0 : Z) : Z -> option T :=
  last_write
    (fun j =>
       last_write
         (fun theta =>
            store_pair_write (2 * (v_tmp + S_ d * (j * N_MU + theta_0 + theta)))
              (temp j theta 0) (temp j theta 1))
         (range 0 (THETA_UNROLL_FACTOR N_MU) 1))
    (range 0 (J_UNROLL_FACTOR N_MU) 1).

(** Every offset of [g'] holds what it held in [g] or what the convolution
    is to leave there. *)
Definition conv_safe {T} {F : FloatOps T} (d : soi_desc_t T) (alpha_dt : buffer T)
    (g g' : buffer T) : Prop :=
  forall a, g' a = g a \/ g' a = cell_val d alpha_dt a.

(** The offsets of columns [i .. i+3] of the blocks of the rows
    [j_lo .. j_hi) hold what the convolution is to leave there. *)
Definition conv_done {T} {F : FloatOps T} (d : soi_desc_t T) (alpha_dt : buffer T)
    (i j_lo j_hi : Z) (g : buffer T) : Prop :=
  forall row theta delta r,
    j_lo <= row < j_hi -> 0 <= theta < d_n_mu d -> 0 <= delta < 4 -> 0 <= r < 2 ->
    g (cell_addr d row theta (i + delta) r)
    = cell_val d alpha_dt (cell_addr d row theta (i + delta) r).

(** ** Sample configurations

    Runs of the definitions above on small inputs, with the integers for
    [VAL_TYPE]: [ZOps] adds and multiplies exactly. *)

(** A window table that is duplicated across lanes. *)
Definition ex_w_dup : vbuffer Z :=
  fun idx => mkv (idx + 1) (idx + 1) (2 * idx + 3) (2 * idx + 3).

(** A descriptor with that table and a transform that returns its input. *)
Definition ex_desc (P rank k N n_mu d_mu B : Z) : soi_desc_t Z :=
  {| d_P := P; d_rank := rank; d_k := k; d_N := N; d_n_mu := n_mu; d_d_mu := d_mu;
     d_B := B; d_w_dup := ex_w_dup; d_desc_dft_s := fun blk => blk |}.

(** The input slice of rank [r]. *)
Definition ex_alpha (r : Z) : buffer Z := fun a => 1000 * r + 3 * a + 1.

Definition ex_zero : buffer Z := fun _ => 0.

(** [n] threads, asserts compiled in or out. *)
Definition ex_env (n : Z) (ndebug : bool) : omp_env Z :=
  {| nthreads := n; NDEBUG := ndebug; stack_garbage := fun _ => mkv 0 0 0 0 |}.

Definition ex_proc : proc_state Z :=
  {| gamma_tilde := ex_zero; alpha_tilde := ex_zero; alpha_ghost := ex_zero;
     stderr := []; trace := [] |}.

Definition ex_world : world Z := {| procs := fun _ => ex_proc; network := [] |}.

(** Two processes, [S = 4], [M/P = 16], ratio 5/4, [B = 8]: [K_0 = 2] and
    four rows per process. *)
Definition ex_ring (rank : Z) : soi_desc_t Z := ex_desc 2 rank 2 128 5 4 8.

(** One process, [S = 4], [M = 14], ratio 8/7, [B = 7]: two rows. *)
Definition ex_eight : soi_desc_t Z := ex_desc 1 0 4 56 8 7 7.

(** The ratio 3/2, which the dispatch does not know. *)
Definition ex_ratio : soi_desc_t Z := ex_desc 2 0 2 128 3 2 8.

(** [M/P = 16] segments per process and a filter of 17. *)
Definition ex_small : soi_desc_t Z := ex_desc 2 0 2 128 5 4 17.

(** [M/P = 16] segments per process and a filter of as many: [K_0 = 0]. *)
Definition ex_exact : soi_desc_t Z := ex_desc 2 0 2 128 5 4 16.

(** [S = 32], so eight thread groups. *)
Definition ex_groups (rank : Z) : soi_desc_t Z := ex_desc 2 rank 16 1024 5 4 8.

(** One process, [S = 4], [M = 136], ratio 5/4 and a filter of [B] segments:
    [K_0 = 2] when [B = 128]. *)
Definition ex_long (B : Z) : soi_desc_t Z := ex_desc 1 0 4 544 5 4 B.

(** What a run lets the caller see: how it ended, and the diagnostics and
    the events of process [rank]. *)
Inductive ending := Returns | Exits (code : Z) | Aborts | Blocks | IsUndefined.

Definition observe {T} (rank : Z) (o : outcome (world T))
    : ending * list diagnostic * list event :=
  match o with
  | Returned w => (Returns, stderr (procs w rank), trace (procs w rank))
  | Exited code w => (Exits code, stderr (procs w rank), trace (procs w rank))
  | Aborted w => (Aborts, stderr (procs w rank), trace (procs w rank))
  | Blocked w => (Blocks, stderr (procs w rank), trace (procs w rank))
  | Undefined => (IsUndefined, [], [])
  end.

(** * Proofs *)

(** ** Loops *)

Lemma trip_count_nil lo hi step :
  0 < step -> hi <= lo -> Z.to_nat ((hi - lo + step - 1) / step) = 0%nat.
Proof.
  intros Hs Hh.
  assert ((hi - lo + step - 1) / step <= 0).
  { apply Z.lt_succ_r. apply Z.div_lt_upper_bound; lia. }
  lia.
Qed.

Lemma trip_count_cons lo hi step :
  0 < step -> lo < hi ->
  Z.to_nat ((hi - lo + step - 1) / step)
  = Datatypes.S (Z.to_nat ((hi - (lo + step) + step - 1) / step)).
Proof.
  intros Hs Hh.
  replace (hi - lo + step - 1) with ((hi - (lo + step) + step - 1) + 1 * step) by lia.
  rewrite Z.div_add by lia.
  assert (0 <= (hi - (lo + step) + step - 1) / step).
  { apply Z.div_pos; lia. }
  lia.
Qed.

Lemma range_nil lo hi step : 0 < step -> hi <= lo -> range lo hi step = [].
Proof.
  intros Hs Hh. unfold range. now rewrite trip_count_nil.
Qed.

Lemma range_cons lo hi step :
  0 < step -> lo < hi -> range lo hi step = lo :: range (lo + step) hi step.
Proof.
  intros Hs Hh. unfold range.
  rewrite trip_count_cons by assumption.
  cbn [seq map]. f_equal; [lia|].
  rewrite <- seq_shift, map_map.
  apply map_ext. intros t. lia.
Qed.

(** Induction over the iterations of a loop. *)
Lemma range_ind (step hi : Z) (Q : Z -> list Z -> Prop) :
  0 < step ->
  (forall lo, hi <= lo -> Q lo []) ->
  (forall lo, lo < hi -> Q (lo + step) (range (lo + step) hi step) ->
              Q lo (lo :: range (lo + step) hi step)) ->
  forall lo, Q lo (range lo hi step).
Proof.
  intros Hs Hnil Hcons lo.
  remember (Z.to_nat (hi - lo)) as n eqn:En.
  revert lo En. induction n as [n IH] using lt_wf_ind. intros lo En.
  destruct (Z_lt_le_dec lo hi) as [Hlt|Hge].
  - rewrite range_cons by assumption. apply Hcons; [assumption|].
    apply (IH (Z.to_nat (hi - (lo + step)))); [lia|reflexivity].
  - rewrite range_nil by assumption. now apply Hnil.
Qed.

Lemma in_range lo hi step i :
  0 < step ->
  In i (range lo hi step) <-> exists t, 0 <= t /\ i = lo + step * t /\ i < hi.
Proof.
  intros Hs. revert lo.
  apply (range_ind (step:=step) (hi:=hi)
           (fun lo l => In i l <-> exists t, 0 <= t /\ i = lo + step * t /\ i < hi));
    [assumption| |].
  - intros lo Hge. split; [intros []|]. intros (t & Ht & -> & Hlt). nia.
  - intros lo Hlt IH. cbn [In]. rewrite IH. split.
    + intros [<- | (t & Ht & -> & Hi)].
      * exists 0. lia.
      * exists (t + 1). lia.
    + intros (t & Ht & -> & Hi).
      destruct (Z.eq_dec t 0) as [->|Hne]; [left; lia|].
      right. exists (t - 1). lia.
Qed.

Lemma in_range_1 lo hi i : In i (range lo hi 1) <-> lo <= i < hi.
Proof.
  rewrite in_range by lia. split.
  - intros (t & Ht & -> & Hi). lia.
  - intros [H1 H2]. exists (i - lo). lia.
Qed.

Lemma range_lower lo hi step i : 0 < step -> In i (range lo hi step) -> lo <= i < hi.
Proof.
  intros Hs Hi. apply in_range in Hi; [|assumption].
  destruct Hi as (t & Ht & -> & Hi). nia.
Qed.

Lemma NoDup_range lo hi step : 0 < step -> NoDup (range lo hi step).
Proof.
  intros Hs. revert lo.
  apply (range_ind (step:=step) (hi:=hi) (fun _ l => NoDup l)); [assumption| |].
  - intros; constructor.
  - intros lo Hlt IH. constructor; [|assumption].
    intros Hin. apply range_lower in Hin; lia.
Qed.

(** The consecutive ranges of a loop cut in two. *)
Lemma range_app lo mid hi : lo <= mid <= hi ->
  range lo mid 1 ++ range mid hi 1 = range lo hi 1.
Proof.
  intros H.
  remember (Z.to_nat (mid - lo)) as n eqn:En.
  revert lo En H. induction n as [|n IH]; intros lo En H.
  - rewrite (range_nil (lo:=lo) (hi:=mid)) by lia. cbn [app].
    replace mid with lo by lia. reflexivity.
  - rewrite (range_cons (lo:=lo) (hi:=mid)), (range_cons (lo:=lo) (hi:=hi)) by lia.
    cbn [app]. f_equal. apply IH; lia.
Qed.

Lemma for_loop_nil {St} lo hi step (body : Z -> St -> St) s :
  0 < step -> hi <= lo -> for_loop lo hi step body s = s.
Proof.
  intros. unfold for_loop. now rewrite range_nil.
Qed.

Lemma for_loop_cons {St} lo hi step (body : Z -> St -> St) s :
  0 < step -> lo < hi ->
  for_loop lo hi step body s = for_loop (lo + step) hi step body (body lo s).
Proof.
  intros. unfold for_loop. now rewrite range_cons.
Qed.

(** Two loops over the same iterations whose bodies agree there are equal. *)
Lemma fold_left_ext_in {A St} (f g : St -> A -> St) l s :
  (forall i st, In i l -> f st i = g st i) -> fold_left f l s = fold_left g l s.
Proof.
  revert s. induction l as [|i l IH]; intros s H; [reflexivity|].
  cbn [fold_left]. rewrite H by (left; reflexivity).
  apply IH. intros; apply H; now right.
Qed.

(** A relation kept by the bodies of two loops holds of their results. *)
Lemma fold_left_rel {A St1 St2} (R : St1 -> St2 -> Prop)
    (f : St1 -> A -> St1) (g : St2 -> A -> St2) l :
  (forall i a b, In i l -> R a b -> R (f a i) (g b i)) ->
  forall a b, R a b -> R (fold_left f l a) (fold_left g l b).
Proof.
  induction l as [|i l IH]; intros H a b Hab; [assumption|].
  cbn [fold_left]. apply IH.
  - intros; apply H; [now right|assumption].
  - apply H; [now left|assumption].
Qed.

(** An invariant of the body is an invariant of the loop. *)
Lemma fold_left_inv {A St} (Inv : St -> Prop) (f : St -> A -> St) l :
  (forall i s, In i l -> Inv s -> Inv (f s i)) ->
  forall s, Inv s -> Inv (fold_left f l s).
Proof.
  induction l as [|i l IH]; intros H s Hs; [assumption|].
  cbn [fold_left]. apply IH.
  - intros; apply H; [now right|assumption].
  - apply H; [now left|assumption].
Qed.

(** ** Stores *)

Ltac case_eqb :=
  match goal with
  | |- context [?a =? ?b] => destruct (Z.eqb_spec a b)
  end.

Section WritesFacts.

Context {T : Type}.

Lemma writes_store (p : Z) (v : SIMDFPTYPE T) :
  writes (fun g => _MM_STORE g p v) (store_write p v).
Proof.
  intros g a. unfold _MM_STORE, overlay, store_write.
  repeat (destruct (_ =? _); [reflexivity|]). reflexivity.
Qed.

Lemma writes_stream (p : Z) (v : SIMDFPTYPE T) :
  writes (fun g => _MM_STREAM g p v) (store_write p v).
Proof. exact (writes_store p v). Qed.

Lemma writes_cwrite (c : Z) (v : cfft_complex_t T) :
  writes (fun g => cwrite g c v) (cwrite_write c v).
Proof.
  intros g a. unfold cwrite, overlay, cwrite_write.
  repeat (destruct (_ =? _); [reflexivity|]). reflexivity.
Qed.

Lemma writes_seq (F1 F2 : buffer T -> buffer T) W1 W2 :
  writes F1 W1 -> writes F2 W2 ->
  writes (fun g => F2 (F1 g)) (then_write W1 W2).
Proof.
  intros H1 H2 g a. rewrite H2. unfold overlay, then_write.
  destruct (W2 a); [reflexivity|]. apply H1.
Qed.

Lemma writes_loop {A} (body : A -> buffer T -> buffer T) (W : A -> Z -> option T) l :
  (forall i, In i l -> writes (body i) (W i)) ->
  writes (fun g => fold_left (fun st i => body i st) l g) (last_write W l).
Proof.
  induction l as [|i l IH]; intros H g a.
  - reflexivity.
  - cbn [fold_left last_write].
    rewrite IH by (intros; apply H; now right).
    unfold overlay. destruct (last_write W l a); [reflexivity|].
    apply H. now left.
Qed.

Lemma writes_for_loop lo hi step (body : Z -> buffer T -> buffer T) W :
  (forall i, In i (range lo hi step) -> writes (body i) (W i)) ->
  writes (for_loop lo hi step body) (last_write W (range lo hi step)).
Proof. intros H. unfold for_loop. now apply writes_loop. Qed.

Lemma last_write_none {A} (W : A -> Z -> option T) l a :
  (forall i, In i l -> W i a = None) -> last_write W l a = None.
Proof.
  induction l as [|i l IH]; intros H; [reflexivity|].
  cbn [last_write]. rewrite IH by (intros; apply H; now right).
  apply H. now left.
Qed.

Lemma last_write_none_inv {A} (W : A -> Z -> option T) l a :
  last_write W l a = None -> forall i, In i l -> W i a = None.
Proof.
  induction l as [|i l IH]; intros H j Hj; [destruct Hj|].
  cbn [last_write] in H.
  destruct (last_write W l a) eqn:E; [discriminate|].
  destruct Hj as [<-|Hj]; [assumption|]. now apply IH.
Qed.

Lemma last_write_some {A} (W : A -> Z -> option T) l a v :
  last_write W l a = Some v -> exists i, In i l /\ W i a = Some v.
Proof.
  induction l as [|i l IH]; intros H; [discriminate|].
  cbn [last_write] in H.
  destruct (last_write W l a) eqn:E.
  - destruct (IH H) as (j & Hj & Hv). exists j. split; [now right|assumption].
  - exists i. split; [now left|assumption].
Qed.

(** When the iterations that write [a] all write what [i0] writes, that is
    the value left. *)
Lemma last_write_agree {A} (W : A -> Z -> option T) l a i0 :
  In i0 l -> (forall i, In i l -> W i a = None \/ W i a = W i0 a) ->
  last_write W l a = W i0 a.
Proof.
  intros Hin H.
  destruct (last_write W l a) as [v|] eqn:E.
  - destruct (last_write_some _ _ _ E) as (i & Hi & Hv).
    destruct (H i Hi) as [Hn|He]; congruence.
  - symmetry. now apply (last_write_none_inv _ _ _ E).
Qed.

(** When a single iteration writes [a], its value is the one left. *)
Lemma last_write_unique (W : Z -> Z -> option T) l a i0 :
  In i0 l -> (forall i, In i l -> i <> i0 -> W i a = None) ->
  last_write W l a = W i0 a.
Proof.
  intros Hin H. apply last_write_agree; [assumption|].
  intros i Hi. destruct (Z.eq_dec i i0) as [->|Hne]; [now right|].
  left. now apply H.
Qed.

Lemma overlay_some W (g : buffer T) a v : W a = Some v -> overlay W g a = v.
Proof. unfold overlay. now intros ->. Qed.

Lemma overlay_none W (g : buffer T) a : W a = None -> overlay W g a = g a.
Proof. unfold overlay. now intros ->. Qed.

(** The two stores per group of four elements that every simple kernel
    performs: element [4q + 2ii + t] of the block at [v_tmp] receives the
    lanes [2t], [2t+1] of the register computed for group [4q] and register
    pair [ii]. *)
Lemma block_store_read_at (val : Z -> Z -> SIMDFPTYPE T) (v_tmp S q ii t : Z)
    (gamma : buffer T) :
  0 <= q -> 0 <= ii < 2 -> 0 <= t < 2 -> 4 * q + 2 * ii + t < S ->
  cread
    (for_loop 0 S (CACHE_LINE_LEN / 2) (fun i g =>
       for_loop 0 2 1 (fun ii g =>
         _MM_STORE g (2 * (v_tmp + i) + ii * SIMD_WIDTH) (val i ii)) g) gamma)
    (v_tmp + (4 * q + 2 * ii + t))
  = clane t (val (4 * q) ii).
Proof.
  intros Hq Hii Ht Hs.
  change (CACHE_LINE_LEN / 2) with 4. change SIMD_WIDTH with 4.
  set (W := fun i => last_write
                (fun ii => store_write (2 * (v_tmp + i) + ii * 4) (val i ii))
                (range 0 2 1)).
  assert (HW : writes
            (for_loop 0 S 4 (fun i g =>
               for_loop 0 2 1 (fun ii g =>
                 _MM_STORE g (2 * (v_tmp + i) + ii * 4) (val i ii)) g))
            (last_write W (range 0 S 4))).
  { apply writes_for_loop. intros i _. unfold W.
    apply writes_for_loop. intros j _. apply writes_store. }
  assert (Hi0 : In (4 * q) (range 0 S 4)).
  { apply in_range; [lia|]. exists q. lia. }
  assert (Hii0 : In ii (range 0 2 1)) by (apply in_range_1; lia).
  assert (Hread : forall r, 0 <= r < 2 ->
            last_write W (range 0 S 4) (2 * (v_tmp + (4 * q + 2 * ii + t)) + r)
            = store_write (2 * (v_tmp + 4 * q) + ii * 4) (val (4 * q) ii)
                (2 * (v_tmp + (4 * q + 2 * ii + t)) + r)).
  { intros r Hr.
    rewrite last_write_unique with (i0 := 4 * q); [|exact Hi0|].
    - unfold W. rewrite last_write_unique with (i0 := ii);
        [reflexivity|exact Hii0|].
      intros j Hj Hne. apply in_range_1 in Hj.
      unfold store_write.
      repeat (case_eqb; [lia|]). reflexivity.
    - intros i Hi Hne. apply in_range in Hi; [|lia].
      destruct Hi as (u & Hu & -> & Hlt).
      unfold W. apply last_write_none. intros j Hj. apply in_range_1 in Hj.
      unfold store_write.
      repeat (case_eqb; [lia|]). reflexivity. }
  unfold cread. rewrite !HW.
  replace (2 * (v_tmp + (4 * q + 2 * ii + t)))
    with (2 * (v_tmp + (4 * q + 2 * ii + t)) + 0) at 1 by lia.
  unfold overlay. rewrite !Hread by lia.
  unfold store_write, clane.
  assert (Ht' : t = 0 \/ t = 1) by lia.
  destruct Ht' as [-> | ->]; cbn [Z.eqb];
    repeat (case_eqb; try lia); reflexivity.
Qed.

Lemma split_index (s : Z) :
  0 <= s ->
  s = 4 * (s / 4) + 2 * (s mod 4 / 2) + s mod 2
  /\ 0 <= s / 4 /\ 0 <= s mod 4 / 2 < 2 /\ 0 <= s mod 2 < 2.
Proof.
  intros Hs.
  pose proof (Z.div_mod s 4 ltac:(lia)) as Hdm.
  pose proof (Z.mod_pos_bound s 4 ltac:(lia)) as Hm4.
  pose proof (Z.div_mod (s mod 4) 2 ltac:(lia)) as Hdm2.
  pose proof (Z.mod_pos_bound (s mod 4) 2 ltac:(lia)) as Hm2.
  assert (Hpar : (s mod 4) mod 2 = s mod 2).
  { replace s with (s mod 4 + (s / 4 * 2) * 2) at 2 by lia.
    now rewrite Z.mod_add by lia. }
  rewrite Hpar in *.
  assert (Hq : 0 <= s / 4) by (apply Z.div_pos; lia).
  generalize dependent (s / 4). generalize dependent (s mod 4 / 2).
  generalize dependent (s mod 2). generalize dependent (s mod 4).
  intros. lia.
Qed.

End WritesFacts.

(** ** The simple convolution kernels *)

Section KernelFacts.

Context {T : Type} {F : FloatOps T}.

Lemma clane_cmul_simd t (xl xh y : SIMDFPTYPE T) :
  l1 xl = l0 xl -> l3 xl = l2 xl -> l1 xh = l0 xh -> l3 xh = l2 xh ->
  clane t (cmul_simd xl xh y) = cmul (tap t xl xh) (clane t y).
Proof.
  intros H1 H2 H3 H4. unfold clane, tap, cmul, cmul_simd.
  destruct (t =? 0); cbn; rewrite ?H1, ?H2, ?H3, ?H4; reflexivity.
Qed.

Lemma clane_add t (a b : SIMDFPTYPE T) :
  clane t (_MM_ADD a b) = cadd (clane t a) (clane t b).
Proof. unfold clane, cadd. destruct (t =? 0); reflexivity. Qed.

Lemma clane_load (m : buffer T) c ii t :
  0 <= t < 2 ->
  clane t (_MM_LOAD m (2 * c + ii * SIMD_WIDTH)) = cread m (c + 2 * ii + t).
Proof.
  intros Ht. change SIMD_WIDTH with 4. unfold clane, cread, _MM_LOAD.
  assert (Ht' : t = 0 \/ t = 1) by lia.
  destruct Ht' as [-> | ->]; cbn [Z.eqb l0 l1 l2 l3];
    f_equal; f_equal; lia.
Qed.

(** A pointer advanced by a constant in each iteration is a function of the
    loop index. *)
Lemma for_loop_pointer {A} (f : Z -> Z -> A -> A) (c hi : Z) :
  forall lo a0 p0,
    fst (for_loop lo hi 1 (fun k (st : A * Z) =>
           let (a, p) := st in (f k p a, p + c)) (a0, p0))
    = for_loop lo hi 1 (fun k a => f k (p0 + (k - lo) * c) a) a0.
Proof.
  unfold for_loop. intros lo.
  set (body := fun (st : A * Z) (k : Z) => let (a, p) := st in (f k p a, p + c)).
  apply (range_ind (step:=1) (hi:=hi) (fun lo l => forall a0 p0,
    fst (fold_left body l (a0, p0))
    = fold_left (fun st i => f i (p0 + (i - lo) * c) st) l a0)); [lia| |].
  - reflexivity.
  - intros lo' Hlt IH a0 p0. cbn [fold_left]. unfold body at 2. rewrite IH.
    replace (p0 + (lo' - lo') * c) with p0 by lia.
    apply fold_left_ext_in. intros i st _. f_equal. lia.
Qed.

Variable d : soi_desc_t T.
Hypothesis Hdup : w_dup_duplicated d.

Lemma window_at k theta q ii t :
  0 <= q -> 0 <= ii < 2 -> 0 <= t < 2 ->
  window d k theta (4 * q + 2 * ii + t)
  = tap t (d_w_dup d (4 * q * d_B d * d_n_mu d + (k * d_n_mu d + theta) * 4 + ii * 2))
          (d_w_dup d (4 * q * d_B d * d_n_mu d + (k * d_n_mu d + theta) * 4 + ii * 2 + 1)).
Proof.
  intros Hq Hii Ht. unfold window, tap.
  assert (E1 : (4 * q + 2 * ii + t) / 4 = q).
  { symmetry. apply (Z.div_unique _ 4 q (2 * ii + t)); lia. }
  assert (E2 : (4 * q + 2 * ii + t) mod 4 = 2 * ii + t).
  { symmetry. apply (Z.mod_unique _ 4 q (2 * ii + t)); lia. }
  assert (E3 : (2 * ii + t) / 2 = ii).
  { symmetry. apply (Z.div_unique _ 2 ii t); lia. }
  assert (E4 : (4 * q + 2 * ii + t) mod 2 = t).
  { symmetry. apply (Z.mod_unique _ 2 (2 * q + ii) t); lia. }
  rewrite E1, E2, E3, E4.
  replace (q * 4) with (4 * q) by lia. reflexivity.
Qed.

(** One term of the sum, as a kernel computes it in lanes [2t], [2t+1]. *)
Lemma clane_term (input : buffer T) j k theta q ii t a :
  0 <= q -> 0 <= ii < 2 -> 0 <= t < 2 ->
  a = 4 * q * d_B d * d_n_mu d + (k * d_n_mu d + theta) * 4 + ii * 2 ->
  clane t (cmul_simd (d_w_dup d a) (d_w_dup d (a + 1))
             (_MM_LOAD input (2 * ((j * d_d_mu d + k) * S_ d + 4 * q) + ii * SIMD_WIDTH)))
  = cmul (window d k theta (4 * q + 2 * ii + t))
         (segment d input (j * d_d_mu d + k) (4 * q + 2 * ii + t)).
Proof.
  intros Hq Hii Ht ->.
  rewrite clane_cmul_simd by apply Hdup.
  rewrite clane_load by assumption.
  rewrite window_at by assumption.
  unfold segment. do 2 f_equal. lia.
Qed.

(** The register a kernel stores for the group at [4q] and register pair
    [ii], as the source of the boundary pass computes it. *)
Lemma boundary_lane (input : buffer T) j theta q ii t :
  0 <= q -> 0 <= ii < 2 -> 0 <= t < 2 ->
  clane t
    (for_loop 1 (d_B d) 1 (fun kkk temp =>
       _MM_ADD temp
         (cmul_simd
            (d_w_dup d (4 * q * d_B d * d_n_mu d
                        + (kkk * d_n_mu d + theta) * (CACHE_LINE_LEN / 2) + ii * 2))
            (d_w_dup d (4 * q * d_B d * d_n_mu d
                        + (kkk * d_n_mu d + theta) * (CACHE_LINE_LEN / 2) + ii * 2 + 1))
            (_MM_LOAD input
               (2 * ((j * d_d_mu d + kkk) * S_ d + 4 * q) + ii * SIMD_WIDTH))))
       (cmul_simd
          (d_w_dup d (4 * q * d_B d * d_n_mu d + theta * (CACHE_LINE_LEN / 2) + ii * 2))
          (d_w_dup d (4 * q * d_B d * d_n_mu d + theta * (CACHE_LINE_LEN / 2) + ii * 2 + 1))
          (_MM_LOAD input (2 * (j * d_d_mu d * S_ d + 4 * q) + ii * SIMD_WIDTH))))
  = conv_spec d input j theta (4 * q + 2 * ii + t).
Proof.
  intros Hq Hii Ht. change (CACHE_LINE_LEN / 2) with 4.
  unfold conv_spec, for_loop.
  apply (fold_left_rel (fun temp acc => clane t temp = acc)).
  - intros k a b _ <-. rewrite clane_add. f_equal.
    now apply clane_term.
  - replace (j * d_d_mu d * S_ d) with ((j * d_d_mu d + 0) * S_ d) by lia.
    replace (j * d_d_mu d) with (j * d_d_mu d + 0) at 2 by lia.
    apply clane_term; try assumption. lia.
Qed.

End KernelFacts.

(** Element [s] of the block a simple kernel writes is the sequential sum
    of section 4.2. *)
Lemma conv_remainder_spec {T} {F : FloatOps T} (d : soi_desc_t T)
    (alpha_dt gamma : buffer T) (j theta s : Z) :
  w_dup_duplicated d -> 0 <= s < S_ d ->
  cread (conv_remainder d alpha_dt j theta gamma)
        (S_ d * (j * d_n_mu d + theta) + s)
  = conv_spec d alpha_dt j theta s.
Proof.
  intros Hdup Hs.
  destruct (@split_index s) as (Es & Hq & Hii & Ht); [lia|].
  generalize dependent (s / 4). generalize dependent (s mod 4 / 2).
  generalize dependent (s mod 2). intros t Ht ii Hii q Es Hq. subst s.
  unfold conv_remainder. cbv zeta.
  rewrite block_store_read_at by (assumption || lia).
  rewrite for_loop_pointer.
  rewrite <- (boundary_lane Hdup alpha_dt j theta Hq Hii Ht).
  f_equal. unfold for_loop. apply fold_left_ext_in.
  intros k temp _. do 3 f_equal; change (CACHE_LINE_LEN / 2) with 4; lia.
Qed.

Lemma conv_boundary_spec {T} {F : FloatOps T} (d : soi_desc_t T)
    (alpha_ghost gamma : buffer T) (j theta s : Z) :
  w_dup_duplicated d -> 0 <= s < S_ d ->
  cread (conv_boundary d alpha_ghost j theta gamma)
        ((K_0 d * d_n_mu d + j * d_n_mu d + theta) * S_ d + s)
  = conv_spec d alpha_ghost j theta s.
Proof.
  intros Hdup Hs.
  destruct (@split_index s) as (Es & Hq & Hii & Ht); [lia|].
  generalize dependent (s / 4). generalize dependent (s mod 4 / 2).
  generalize dependent (s mod 2). intros t Ht ii Hii q Es Hq. subst s.
  unfold conv_boundary. cbv zeta.
  rewrite block_store_read_at by (assumption || lia).
  rewrite <- (boundary_lane Hdup alpha_ghost j theta Hq Hii Ht).
  reflexivity.
Qed.

(** C1. For a block (row [j], oversampling index [theta]) both simple
    kernels, the one of the remainder rows and the one of the boundary pass,
    leave in element [s] of the block the sum over [k] from [0] to [B-1] of
    [window[k][theta][s]] times [input[j*d_mu + k][s]], the product taken by
    the real/imaginary decomposition and the terms added one after the other
    from [k = 0] on.  The window table is assumed duplicated across lanes, as
    its layout requires. *)
Theorem conv_kernel_sequential_sum {T} {F : FloatOps T} (d : soi_desc_t T)
    (alpha_dt alpha_ghost gamma : buffer T) (j theta s : Z) :
  w_dup_duplicated d -> 1 <= d_B d -> 0 <= s < S_ d ->
  cread (conv_remainder d alpha_dt j theta gamma)
        (S_ d * (j * d_n_mu d + theta) + s)
    = conv_spec d alpha_dt j theta s
  /\ cread (conv_boundary d alpha_ghost j theta gamma)
           ((K_0 d * d_n_mu d + j * d_n_mu d + theta) * S_ d + s)
    = conv_spec d alpha_ghost j theta s.
Proof.
  intros Hdup HB Hs. split.
  - now apply conv_remainder_spec.
  - now apply conv_boundary_spec.
Qed.

(** ** The Transpose/Scatter Step *)

Section ScatterFacts.

Context {T : Type}.
Variable d : soi_desc_t T.

Lemma u64_small x : 0 <= x < 2 ^ 64 -> u64 x = x.
Proof. intros H. unfold u64. now apply Z.mod_small. Qed.

(** The rows of the process fill at most one line of [alpha_tilde]. *)
Lemma rows_n_mu_le_l :
  0 < d_P d -> 0 < d_n_mu d -> d_P d * d_n_mu d < 2 ^ 64 ->
  rows d * d_n_mu d <= l_ d.
Proof.
  intros HP Hn Ho. unfold rows, l_.
  rewrite u64_small by nia.
  rewrite <- Z.div_div by lia.
  rewrite Z.mul_comm. apply Z.mul_div_le. lia.
Qed.

Lemma block_col_bound (b : block T) :
  0 < d_P d -> d_P d * d_n_mu d < 2 ^ 64 -> block_in_range d b ->
  0 <= block_col d b < l_ d.
Proof.
  intros HP Ho [Hj Ht]. pose proof (rows_n_mu_le_l HP ltac:(lia) Ho).
  unfold block_col. nia.
Qed.

Lemma writes_scatter_block src col gamma :
  writes (scatter_block d src col gamma) (scatter_write d src col gamma).
Proof.
  unfold scatter_block, scatter_write. apply writes_for_loop.
  intros s _. apply writes_cwrite.
Qed.

(** A block writes nothing into the column of another block. *)
Lemma scatter_write_other src col gamma col' s r :
  0 <= col < l_ d -> 0 <= col' < l_ d -> col <> col' -> 0 <= r < 2 ->
  scatter_write d src col gamma (2 * (s * l_ d + col') + r) = None.
Proof.
  intros Hc Hc' Hne Hr. unfold scatter_write. apply last_write_none.
  intros s' _. unfold cwrite_write.
  assert (s' * l_ d + col <> s * l_ d + col').
  { intros E. assert (s' = s) by nia. subst. lia. }
  repeat (case_eqb; [lia|]). reflexivity.
Qed.

(** A block writes its element [s] to line [s] of its column. *)
Lemma scatter_write_own src col gamma s r :
  0 < l_ d -> 0 <= s < S_ d -> 0 <= r < 2 ->
  scatter_write d src col gamma (2 * (s * l_ d + col) + r)
  = Some (comp r (cread gamma (src + s))).
Proof.
  intros Hl Hs Hr. unfold scatter_write.
  rewrite last_write_unique with (i0 := s).
  - unfold cwrite_write, comp. assert (Hr' : r = 0 \/ r = 1) by lia.
    destruct Hr' as [-> | ->]; cbn [Z.eqb];
      repeat (case_eqb; try lia); reflexivity.
  - apply in_range_1. lia.
  - intros s' _ Hne. unfold cwrite_write.
    assert (s' * l_ d <> s * l_ d) by nia.
    repeat (case_eqb; [lia|]). reflexivity.
Qed.

Lemma writes_scatter_blocks (bs : list (block T)) :
  writes (scatter_blocks d bs) (blocks_write d bs).
Proof.
  unfold scatter_blocks, blocks_write.
  apply (writes_loop
           (fun b at_ => scatter_block d (S_ d * block_col d b) (block_col d b) (snd b) at_)).
  intros b _. apply writes_scatter_block.
Qed.

Lemma scatter_blocks_write (bs : list (block T)) (j theta s r : Z) (gamma : buffer T) :
  0 < d_P d -> d_P d * d_n_mu d < 2 ^ 64 ->
  (forall b, In b bs -> block_in_range d b) ->
  In (j, theta, gamma) bs ->
  (forall g, In (j, theta, g) bs -> g = gamma) ->
  0 <= s < S_ d -> 0 <= r < 2 ->
  blocks_write d bs (2 * (s * l_ d + (j * d_n_mu d + theta)) + r)
  = Some (comp r (cread gamma (S_ d * (j * d_n_mu d + theta) + s))).
Proof.
  intros HP Ho Hall Hin Hsame Hs Hr.
  pose proof (block_col_bound HP Ho (Hall _ Hin)) as Hc0.
  change (block_col d (j, theta, gamma)) with (j * d_n_mu d + theta) in Hc0.
  unfold blocks_write.
  rewrite last_write_agree with (i0 := (j, theta, gamma)); [|exact Hin|].
  - unfold block_col. cbn [fst snd]. now rewrite scatter_write_own by lia.
  - intros [[j' theta'] g'] Hb.
    pose proof (Hall _ Hb) as Hrange.
    pose proof (block_col_bound HP Ho Hrange) as Hc.
    destruct Hrange as [Hj' Ht']. cbn [fst snd] in Hj', Ht'.
    destruct (Hall _ Hin) as [Hj Ht]. cbn [fst snd] in Hj, Ht.
    destruct (Z.eq_dec j' j) as [->|Hnj].
    + destruct (Z.eq_dec theta' theta) as [->|Hnt].
      * right. now rewrite (Hsame _ Hb).
      * left. apply scatter_write_other; try assumption.
        unfold block_col. cbn [fst snd]. lia.
    + left. apply scatter_write_other; try assumption.
      unfold block_col. cbn [fst snd]. nia.
Qed.

Lemma scatter_blocks_read (bs : list (block T)) (alpha_tilde : buffer T)
    (j theta s : Z) (gamma : buffer T) :
  0 < d_P d -> d_P d * d_n_mu d < 2 ^ 64 ->
  (forall b, In b bs -> block_in_range d b) ->
  In (j, theta, gamma) bs ->
  (forall g, In (j, theta, g) bs -> g = gamma) ->
  0 <= s < S_ d ->
  cread (scatter_blocks d bs alpha_tilde) (s * l_ d + (j * d_n_mu d + theta))
  = cread gamma (S_ d * (j * d_n_mu d + theta) + s).
Proof.
  intros HP Ho Hall Hin Hsame Hs.
  unfold cread. rewrite !writes_scatter_blocks. unfold overlay.
  replace (2 * (s * l_ d + (j * d_n_mu d + theta)))
    with (2 * (s * l_ d + (j * d_n_mu d + theta)) + 0) at 1 by lia.
  rewrite (@scatter_blocks_write bs j theta s 0 gamma),
    (@scatter_blocks_write bs j theta s 1 gamma) by (assumption || lia).
  reflexivity.
Qed.

End ScatterFacts.

(** The scalar transpose of a row is the scatter of its blocks, in the order
    of their oversampling indices. *)
Lemma transpose_scalar_blocks {T} (d : soi_desc_t T) j (gamma alpha_tilde : buffer T) :
  transpose_scalar d j gamma alpha_tilde
  = scatter_blocks d (map (fun theta => (j, theta, gamma)) (range 0 (d_n_mu d) 1))
      alpha_tilde.
Proof.
  unfold transpose_scalar, scatter_blocks, for_loop.
  generalize (range 0 (d_n_mu d) 1) alpha_tilde.
  induction l as [|theta l IH]; intros at_; [reflexivity|].
  cbn [map fold_left]. apply IH.
Qed.

(** C4. The Transpose/Scatter Step writes element [s] of the block of row
    [j] and oversampling index [theta] to
    [alpha_tilde[s*l + j*n_mu + theta]], [l = M_hat/P], unchanged: this holds
    of the copy of the block alone (remainder rows, boundary pass), of the
    scalar transpose of its row (local pass), and it still holds after any
    sequence [bs] of block scatters that contains the block, whatever the
    order: reading [alpha_tilde] back column by column recovers the values
    fed in. *)
Theorem scatter_is_index_permutation {T} (d : soi_desc_t T) (bs : list (block T))
    (alpha_tilde gamma : buffer T) (j theta s : Z) :
  0 < d_P d -> d_P d * d_n_mu d < 2 ^ 64 ->
  (forall b, In b bs -> block_in_range d b) ->
  In (j, theta, gamma) bs ->
  (forall g, In (j, theta, g) bs -> g = gamma) ->
  0 <= s < S_ d ->
  cread (scatter_block d (S_ d * (j * d_n_mu d + theta)) (j * d_n_mu d + theta)
           gamma alpha_tilde)
        (s * l_ d + j * d_n_mu d + theta)
    = cread gamma (S_ d * (j * d_n_mu d + theta) + s)
  /\ cread (transpose_scalar d j gamma alpha_tilde) (s * l_ d + j * d_n_mu d + theta)
    = cread gamma (S_ d * (j * d_n_mu d + theta) + s)
  /\ cread (scatter_blocks d bs alpha_tilde) (s * l_ d + j * d_n_mu d + theta)
    = cread gamma (S_ d * (j * d_n_mu d + theta) + s).
Proof.
  intros HP Ho Hall Hin Hsame Hs.
  pose proof (Hall _ Hin) as Hb.
  rewrite <- !Z.add_assoc.
  split; [|split].
  - apply (@scatter_blocks_read T d [(j, theta, gamma)]); try assumption.
    + intros b [<-|[]]. exact Hb.
    + now left.
    + intros g [E|[]]. congruence.
  - rewrite transpose_scalar_blocks.
    destruct Hb as [Hj Ht]. cbn [fst snd] in Hj, Ht.
    apply scatter_blocks_read; try assumption.
    + intros b Hb. apply in_map_iff in Hb. destruct Hb as (th & <- & Hth).
      apply in_range_1 in Hth. split; cbn [fst snd]; assumption.
    + apply in_map_iff. exists theta. split; [reflexivity|].
      apply in_range_1. assumption.
    + intros g Hg. apply in_map_iff in Hg. destruct Hg as (th & E & _).
      congruence.
  - now apply scatter_blocks_read.
Qed.

(** ** The transpose in registers *)

Section AvxFacts.

Context {T : Type} {F : FloatOps T}.

Lemma last_write_some_intro {A} (W : A -> Z -> option T) l a i v :
  In i l -> W i a = Some v -> exists v', last_write W l a = Some v'.
Proof.
  intros Hi Hv. destruct (last_write W l a) as [v'|] eqn:E.
  - now exists v'.
  - rewrite (last_write_none_inv _ _ _ E _ Hi) in Hv. discriminate.
Qed.

Lemma last_write_map {A B} (f : A -> B) (W : B -> Z -> option T) l a :
  last_write W (map f l) a = last_write (fun x => W (f x)) l a.
Proof.
  induction l as [|x l IH]; [reflexivity|].
  cbn [map last_write]. now rewrite IH.
Qed.

Lemma store_write_inv p (v : SIMDFPTYPE T) a x :
  store_write p v a = Some x ->
  (a = p /\ x = l0 v) \/ (a = p + 1 /\ x = l1 v) \/
  (a = p + 2 /\ x = l2 v) \/ (a = p + 3 /\ x = l3 v).
Proof.
  unfold store_write.
  repeat (case_eqb; [intros [= <-]; tauto|]). discriminate.
Qed.

Lemma cwrite_write_inv c (v : cfft_complex_t T) a x :
  cwrite_write c v a = Some x ->
  exists r, 0 <= r < 2 /\ a = 2 * c + r /\ x = comp r v.
Proof.
  unfold cwrite_write.
  case_eqb; [intros [= <-]; exists 0; repeat split; lia|].
  case_eqb; [intros [= <-]; exists 1; repeat split; lia|].
  discriminate.
Qed.

Lemma avx_pairs_eq :
  avx_pairs = [(0,0); (0,1); (0,2); (0,3); (1,0); (1,1); (1,2); (1,3);
               (2,0); (2,1); (2,2); (2,3); (3,0); (3,1); (3,2); (3,3)].
Proof. reflexivity. Qed.

Lemma in_avx_pairs k m : In (k, m) avx_pairs <-> 0 <= k < 4 /\ 0 <= m < 4.
Proof.
  unfold avx_pairs. rewrite in_flat_map. split.
  - intros (k' & Hk & Hm). apply in_map_iff in Hm.
    destruct Hm as (m' & [= <- <-] & Hm).
    apply in_range_1 in Hk, Hm. lia.
  - intros [Hk Hm]. exists k. split; [apply in_range_1; lia|].
    apply in_map_iff. exists m. split; [reflexivity|apply in_range_1; lia].
Qed.

Lemma insertf128_hi (a : SIMDFPTYPE T) (b : T * T) :
  _mm256_insertf128_pd a b 1 = mkv (l0 a) (l1 a) (fst b) (snd b).
Proof. reflexivity. Qed.

Lemma permute2f128_hi_hi (a b : SIMDFPTYPE T) :
  _mm256_permute2f128_pd a b 49 = mkv (l2 a) (l3 a) (l2 b) (l3 b).
Proof. reflexivity. Qed.

Lemma stream_ext (m m' : buffer T) p p' (v v' : SIMDFPTYPE T) :
  m = m' -> p = p' -> v = v' -> _MM_STREAM m p v = _MM_STREAM m' p' v'.
Proof. now intros -> -> ->. Qed.

Lemma mkv_ext (g : buffer T) a b c e a' b' c' e' :
  a = a' -> b = b' -> c = c' -> e = e' ->
  mkv (g a) (g b) (g c) (g e) = mkv (g a') (g b') (g c') (g e').
Proof. now intros -> -> -> ->. Qed.

Variable d : soi_desc_t T.

(** The step of the register transpose is its sixteen stores, each of the
    element [k] of two neighbouring blocks. *)
Lemma transpose_avx_step_stores in_ out (gamma at_ : buffer T) :
  transpose_avx_step d in_ out gamma at_
  = fold_left (fun m ps => _MM_STREAM m (fst ps) (snd ps))
      (avx_stores d gamma in_ out) at_.
Proof.
  unfold avx_stores. rewrite avx_pairs_eq.
  unfold transpose_avx_step. cbv zeta.
  cbn [map fold_left fst snd].
  rewrite !insertf128_hi, !permute2f128_hi_hi.
  unfold _mm256_castpd256_pd128, _MM_LOAD, avx_vec, cread.
  cbn [l0 l1 l2 l3 fst snd].
  repeat (apply stream_ext; [|lia|apply mkv_ext; lia]).
  reflexivity.
Qed.

Lemma writes_avx_step in_ out gamma :
  writes (transpose_avx_step d in_ out gamma) (avx_step_write d in_ out gamma).
Proof.
  intros g a. rewrite transpose_avx_step_stores.
  apply (writes_loop (fun ps m => _MM_STREAM m (fst ps) (snd ps))
           (fun ps => store_write (fst ps) (snd ps))).
  intros ps _. apply writes_stream.
Qed.

(** Whatever a step writes is element [k] of a block [theta], at line [k]
    and column [theta] from [out]. *)
Lemma avx_step_sound in_ out gamma a x :
  avx_step_write d in_ out gamma a = Some x ->
  exists k theta r,
    0 <= k < 4 /\ 0 <= theta < 8 /\ 0 <= r < 2 /\
    a = 2 * (out + k * l_ d + theta) + r /\
    x = comp r (cread gamma (in_ + theta * S_ d + k)).
Proof.
  intros H. apply last_write_some in H. destruct H as ([p v] & Hin & Hw).
  unfold avx_stores in Hin. apply in_map_iff in Hin.
  destruct Hin as ([k m] & E & Hkm). apply in_avx_pairs in Hkm.
  cbn beta in E. cbn [fst snd] in E.
  apply pair_equal_spec in E. destruct E as [<- <-].
  cbn [fst snd] in Hw. apply store_write_inv in Hw.
  unfold avx_vec in Hw. cbn [l0 l1 l2 l3] in Hw.
  destruct Hw as [[-> ->]|[[-> ->]|[[-> ->]|[-> ->]]]].
  - exists k, (2 * m), 0. repeat split; try lia.
  - exists k, (2 * m), 1. repeat split; try lia.
  - exists k, (2 * m + 1), 0. repeat split; try lia.
  - exists k, (2 * m + 1), 1. repeat split; try lia.
Qed.

(** A step writes every element of its four lines and eight columns. *)
Lemma avx_step_complete in_ out gamma k theta r :
  0 <= k < 4 -> 0 <= theta < 8 -> 0 <= r < 2 ->
  exists x, avx_step_write d in_ out gamma (2 * (out + k * l_ d + theta) + r) = Some x.
Proof.
  intros Hk Ht Hr.
  pose proof (Z.div_mod theta 2 ltac:(lia)) as Hdm.
  pose proof (Z.mod_pos_bound theta 2 ltac:(lia)) as Hm.
  assert (Hq : 0 <= theta / 2 < 4).
  { split; [apply Z.div_pos; lia|apply Z.div_lt_upper_bound; lia]. }
  set (p := 2 * (out + k * l_ d + 2 * (theta / 2))).
  assert (Hex : exists x, store_write p (avx_vec d gamma in_ k (theta / 2))
                            (2 * (out + k * l_ d + theta) + r) = Some x).
  { unfold store_write, p.
    repeat (case_eqb; [eexists; reflexivity|]). lia. }
  destruct Hex as (x & Hx).
  apply (last_write_some_intro (fun ps => store_write (fst ps) (snd ps))
           (avx_stores d gamma in_ out) _
           (p, avx_vec d gamma in_ k (theta / 2)) (v:=x)); [|exact Hx].
  unfold avx_stores. apply in_map_iff. exists (k, theta / 2).
  split; [reflexivity|]. apply in_avx_pairs. lia.
Qed.

End AvxFacts.

Section AvxTranspose.

Context {T : Type} {F : FloatOps T}.
Variable d : soi_desc_t T.
Variable j : Z.
Variable gamma : buffer T.

Hypothesis Hn : d_n_mu d = 8.
Hypothesis HS : S_ d mod 4 = 0.
Hypothesis HP : 0 < d_P d.
Hypothesis Ho : d_P d * d_n_mu d < 2 ^ 64.
Hypothesis Hj : 0 <= j < rows d.

Lemma writes_transpose_avx : writes (transpose_avx d j gamma) (avx_write d j gamma).
Proof.
  unfold transpose_avx, avx_write. rewrite Hn.
  change SIMD_WIDTH with 4. change (2 * 4) with 8.
  replace ((j + 1) * 8 / 4 * 4) with (j * 8 + 8).
  2:{ replace ((j + 1) * 8) with ((2 * (j + 1)) * 4) by lia.
      rewrite Z.div_mul by lia. lia. }
  intros g a.
  rewrite for_loop_cons by lia. rewrite for_loop_nil by lia.
  apply writes_for_loop. intros s _. apply writes_avx_step.
Qed.

Lemma writes_transpose_scalar :
  writes (transpose_scalar d j gamma) (transpose_write d j gamma).
Proof.
  intros g a. rewrite transpose_scalar_blocks. apply writes_scatter_blocks.
Qed.

Lemma row_blocks_in_range b :
  In b (map (fun theta => (j, theta, gamma)) (range 0 (d_n_mu d) 1)) ->
  block_in_range d b.
Proof.
  intros Hb. apply in_map_iff in Hb. destruct Hb as (th & <- & Hth).
  apply in_range_1 in Hth. split; cbn [fst snd]; assumption.
Qed.

Lemma transpose_write_at s theta r :
  0 <= s < S_ d -> 0 <= theta < 8 -> 0 <= r < 2 ->
  transpose_write d j gamma (2 * (s * l_ d + (j * d_n_mu d + theta)) + r)
  = Some (comp r (cread gamma (S_ d * (j * d_n_mu d + theta) + s))).
Proof.
  intros Hs Ht Hr. unfold transpose_write.
  apply scatter_blocks_write; try assumption.
  - exact row_blocks_in_range.
  - apply in_map_iff. exists theta. split; [reflexivity|].
    apply in_range_1. lia.
  - intros g Hg. apply in_map_iff in Hg. destruct Hg as (th & E & _).
    congruence.
Qed.

Lemma avx_write_eq_scalar a : avx_write d j gamma a = transpose_write d j gamma a.
Proof.
  destruct (avx_write d j gamma a) as [x|] eqn:E.
  - unfold avx_write in E. apply last_write_some in E.
    destruct E as (s0 & Hs0 & Hw).
    apply in_range in Hs0; [|lia]. destruct Hs0 as (q & Hq & -> & Hlt).
    apply avx_step_sound in Hw.
    destruct Hw as (k & theta & r & Hk & Ht & Hr & -> & ->).
    pose proof (Z.div_mod (S_ d) 4 ltac:(lia)) as HdS. rewrite HS in HdS.
    symmetry.
    replace (2 * ((0 + 4 * q) * l_ d + j * 8 + k * l_ d + theta) + r)
      with (2 * ((4 * q + k) * l_ d + (j * d_n_mu d + theta)) + r) by lia.
    rewrite transpose_write_at by lia.
    do 3 f_equal. lia.
  - destruct (transpose_write d j gamma a) as [y|] eqn:E2; [exfalso|reflexivity].
    unfold transpose_write, blocks_write in E2.
    apply last_write_some in E2. destruct E2 as (b & Hb & Hw).
    apply in_map_iff in Hb. destruct Hb as (theta & <- & Hth).
    apply in_range_1 in Hth. rewrite Hn in Hth.
    unfold scatter_write, block_col in Hw. cbn [fst snd] in Hw.
    apply last_write_some in Hw. destruct Hw as (s & Hs & Hw).
    apply in_range_1 in Hs.
    apply cwrite_write_inv in Hw. destruct Hw as (r & Hr & -> & _).
    destruct (@split_index s ltac:(lia)) as (Es & Hq & Hii & Ht).
    remember (s / 4) as q eqn:Eq. remember (s mod 4 / 2) as ii eqn:Eii.
    remember (s mod 2) as t eqn:Et. clear Eq Eii Et. subst s.
    pose proof (Z.div_mod (S_ d) 4 ltac:(lia)) as HdS. rewrite HS in HdS.
    destruct (avx_step_complete d
                (S_ d * j * 8 + S_ d * (j * 8 - j * 8) + 4 * q)
                (4 * q * l_ d + j * 8) gamma (k:=2 * ii + t) (theta:=theta) (r:=r))
      as (x & Hx); try lia.
    destruct (last_write_some_intro
                (fun s => avx_step_write d (S_ d * j * 8 + S_ d * (j * 8 - j * 8) + s)
                            (s * l_ d + j * 8) gamma)
                (range 0 (S_ d) 4)
                (2 * (4 * q * l_ d + j * 8 + (2 * ii + t) * l_ d + theta) + r)
                (4 * q) (v:=x)) as (x' & Hx'); [|exact Hx|].
    + apply in_range; [lia|]. exists q. lia.
    + unfold avx_write in E.
      replace (2 * ((4 * q + 2 * ii + t) * l_ d + (j * d_n_mu d + theta)) + r)
        with (2 * (4 * q * l_ d + j * 8 + (2 * ii + t) * l_ d + theta) + r) in E.
      * congruence.
      * rewrite Hn. lia.
Qed.

(** The two transposes of a row leave the same memory. *)
Lemma transpose_avx_writes_scalar :
  writes (transpose_avx d j gamma) (transpose_write d j gamma).
Proof.
  intros g a. rewrite writes_transpose_avx. unfold overlay.
  now rewrite avx_write_eq_scalar.
Qed.

End AvxTranspose.


(** ** The partition of the rows between the passes *)

Lemma MIN_spec a b : (a < b /\ MIN a b = a) \/ (b <= a /\ MIN a b = b).
Proof. unfold MIN. destruct (Z.ltb_spec a b); [left|right]; lia. Qed.

Lemma fold_left_flat_map {A B St} (f : St -> B -> St) (g : A -> list B) l s :
  fold_left f (flat_map g l) s = fold_left (fun st a => fold_left f (g a) st) l s.
Proof.
  revert s. induction l as [|a l IH]; intros s; [reflexivity|].
  cbn [flat_map fold_left]. now rewrite fold_left_app, IH.
Qed.

Lemma fold_left_map {A B St} (f : St -> B -> St) (g : A -> B) l s :
  fold_left f (map g l) s = fold_left (fun st a => f st (g a)) l s.
Proof.
  revert s. induction l as [|a l IH]; intros s; [reflexivity|].
  cbn [map fold_left]. apply IH.
Qed.

Lemma map_shift_range k lo hi :
  map (fun j => k + j) (range lo hi 1) = range (k + lo) (k + hi) 1.
Proof.
  revert lo. apply (range_ind (step:=1) (hi:=hi)
    (fun lo l => map (fun j => k + j) l = range (k + lo) (k + hi) 1)); [lia| |].
  - intros lo Hge. now rewrite range_nil by lia.
  - intros lo Hlt IH. cbn [map].
    rewrite (range_cons (lo:=k + lo)) by lia. f_equal.
    rewrite IH. f_equal. lia.
Qed.

(** Threads that take consecutive chunks of [c] rows, cut at [e], take the
    rows below [e] in order, once each. *)
Lemma chunks_cover (c e n : Z) :
  0 <= c -> 0 <= e ->
  forall lo, 0 <= lo <= n ->
  flat_map (fun t => range (MIN (c * t) e) (MIN (MIN (c * t) e + c) e) 1)
           (range lo n 1)
  = range (MIN (c * lo) e) (MIN (c * n) e) 1.
Proof.
  intros Hc He lo.
  apply (range_ind (step:=1) (hi:=n) (fun lo l => 0 <= lo <= n ->
    flat_map (fun t => range (MIN (c * t) e) (MIN (MIN (c * t) e + c) e) 1) l
    = range (MIN (c * lo) e) (MIN (c * n) e) 1)); [lia| |].
  - intros lo' Hge Hlo. cbn [flat_map]. replace lo' with n by lia.
    now rewrite range_nil by lia.
  - intros lo' Hlt IH Hlo. cbn [flat_map]. rewrite IH by lia.
    assert (E : MIN (MIN (c * lo') e + c) e = MIN (c * (lo' + 1)) e).
    { destruct (MIN_spec (c * lo') e) as [[? ->]|[? ->]];
      destruct (MIN_spec (c * lo' + c) e) as [[? E1]|[? E1]];
      destruct (MIN_spec (e + c) e) as [[? E2]|[? E2]];
      destruct (MIN_spec (c * (lo' + 1)) e) as [[? E3]|[? E3]];
      rewrite ?E1, ?E2, ?E3; lia. }
    rewrite E. apply range_app.
    destruct (MIN_spec (c * lo') e) as [[? ->]|[? ->]];
    destruct (MIN_spec (c * (lo' + 1)) e) as [[? ->]|[? ->]];
    destruct (MIN_spec (c * n) e) as [[? ->]|[? ->]]; nia.
Qed.

Section RowFacts.

Context {T : Type} {F : FloatOps T}.
Variable N_MU D_MU : Z.
Variable env : omp_env T.
Variable d : soi_desc_t T.
Variable alpha_dt : buffer T.

(** The loops of the passes visit the rows of the lists above. *)
Lemma fft_phase_rows st :
  fft_phase N_MU env d st
  = fold_left (fun st j => fft_transpose_row N_MU d j st) (fft_rows N_MU env d) st.
Proof.
  unfold fft_phase, fft_rows, for_loop. now rewrite fold_left_flat_map.
Qed.

Lemma remainder_phase_rows st :
  remainder_phase N_MU d alpha_dt st
  = fold_left (fun st j =>
      for_loop 0 (d_n_mu d) 1 (fun theta (st : buffer T * buffer T) =>
        let gamma := conv_remainder d alpha_dt j theta (fst st) in
        let gamma := DftiComputeForward d (S_ d * (j * d_n_mu d + theta)) gamma in
        (gamma,
         scatter_block d (S_ d * (j * d_n_mu d + theta)) (j * d_n_mu d + theta)
           gamma (snd st))) st)
      (remainder_rows N_MU d) st.
Proof. reflexivity. Qed.

Lemma boundary_pass_rows ghost st :
  boundary_pass d ghost st
  = fold_left (fun st row =>
      let j := row - K_0 d in
      for_loop 0 (d_n_mu d) 1 (fun theta (st : buffer T * buffer T) =>
        let v_tmp := (K_0 d * d_n_mu d + j * d_n_mu d + theta) * S_ d in
        let gamma := conv_boundary d ghost j theta (fst st) in
        let gamma := DftiComputeForward d v_tmp gamma in
        (gamma,
         scatter_block d v_tmp ((K_0 d + j) * d_n_mu d + theta) gamma (snd st))) st)
      (boundary_rows d) st.
Proof.
  unfold boundary_pass, boundary_rows, for_loop. rewrite fold_left_map.
  apply fold_left_ext_in. intros j st' _. cbv zeta.
  replace (K_0 d + j - K_0 d) with j by lia. reflexivity.
Qed.

Hypothesis Hsizes : valid_sizes d.

Lemma K_0_exact : K_0 d = (M_ d / d_P d - d_B d) / d_d_mu d.
Proof.
  destruct Hsizes as (HP & Hn & Hd & HN & HB & HM & _).
  unfold K_0.
  assert (H1 : 0 <= M_ d / d_P d - d_B d < 2 ^ 53) by lia.
  rewrite (u64_small (x:=M_ d / d_P d - d_B d)) by lia.
  assert (H2 : 0 <= (M_ d / d_P d - d_B d) / d_d_mu d < 2 ^ 53).
  { split; [apply Z.div_pos; lia|].
    apply Z.div_lt_upper_bound; nia. }
  unfold double_of_size_t.
  destruct (Z.ltb_spec ((M_ d / d_P d - d_B d) / d_d_mu d) (2 ^ 53)); [|lia].
  apply u64_small. lia.
Qed.

Lemma M_nonneg : 0 <= M_ d.
Proof.
  destruct Hsizes as (HP & Hn & Hd & HN & _). unfold M_.
  assert (0 <= S_ d) by (unfold S_, u64; apply Z.mod_pos_bound; lia).
  destruct (Z.eq_dec (S_ d) 0) as [->|]; [now rewrite Z.div_0_r|].
  apply Z.div_pos; lia.
Qed.

Lemma rows_exact : rows d = M_ d / d_P d / d_d_mu d.
Proof.
  destruct Hsizes as (HP & Hn & Hd & HN & HB & HM & Ho1 & Ho2).
  pose proof M_nonneg as HM0.
  unfold rows, M_hat.
  rewrite !u64_small by nia.
  rewrite Z.div_div by lia.
  replace (d_d_mu d * (d_P d * d_n_mu d)) with (d_n_mu d * (d_P d * d_d_mu d)) by lia.
  rewrite Z.div_mul_cancel_l by lia.
  now rewrite Z.div_div by lia.
Qed.

Lemma K_0_bounds : 0 <= K_0 d <= rows d.
Proof.
  destruct Hsizes as (HP & Hn & Hd & HN & HB & HM & _).
  rewrite K_0_exact, rows_exact. split.
  - apply Z.div_pos; lia.
  - apply Z.div_le_mono; lia.
Qed.

Lemma rows_bound : rows d < 2 ^ 53.
Proof.
  destruct Hsizes as (HP & Hn & Hd & HN & HB & HM & _).
  rewrite rows_exact.
  apply Z.le_lt_trans with (M_ d / d_P d); [|assumption].
  apply Z.div_le_upper_bound; nia.
Qed.

Lemma J_UNROLL_FACTOR_pos : 1 <= J_UNROLL_FACTOR N_MU.
Proof.
  unfold J_UNROLL_FACTOR.
  destruct (Z.ltb_spec (REG_BLOCK_SIZE / THETA_UNROLL_FACTOR N_MU) 1); lia.
Qed.

Lemma end_bounds : 0 <= end_ N_MU d <= K_0 d.
Proof.
  pose proof K_0_bounds as HK. pose proof J_UNROLL_FACTOR_pos as HJ.
  unfold end_. split.
  - apply Z.mul_nonneg_nonneg; [apply Z.div_pos|]; lia.
  - rewrite Z.mul_comm. apply Z.mul_div_le. lia.
Qed.

Hypothesis Hth : 0 < nthreads env.

Lemma fft_rows_eq : fft_rows N_MU env d = range 0 (end_ N_MU d) 1.
Proof.
  pose proof end_bounds as He.
  unfold fft_rows, j_end_fft, j_begin_fft.
  set (n := nthreads env) in *. set (e := end_ N_MU d) in *.
  set (c := j_per_thread_fft N_MU env d).
  assert (Hc : 0 <= c /\ e <= c * n).
  { unfold c, j_per_thread_fft. fold n e.
    pose proof (Z.div_mod (e + n - 1) n ltac:(lia)) as Hdm.
    pose proof (Z.mod_pos_bound (e + n - 1) n ltac:(lia)) as Hm.
    split; [apply Z.div_pos; lia|].
    clearbody n e. generalize dependent ((e + n - 1) / n).
    generalize dependent ((e + n - 1) mod n). intros. lia. }
  rewrite chunks_cover by lia.
  rewrite Z.mul_0_r.
  destruct (MIN_spec 0 e) as [[? ->]|[? ->]];
  destruct (MIN_spec (c * n) e) as [[? ->]|[? ->]]; try lia; try reflexivity.
  assert (E0 : e = 0) by lia. now rewrite E0.
Qed.

Lemma local_rows_eq : local_rows N_MU env d = range 0 (K_0 d) 1.
Proof.
  unfold local_rows, remainder_rows. rewrite fft_rows_eq.
  apply range_app. exact end_bounds.
Qed.

Lemma boundary_rows_eq : boundary_rows d = range (K_0 d) (rows d) 1.
Proof.
  pose proof K_0_bounds as HK. pose proof rows_bound as HR.
  unfold boundary_rows. rewrite u64_small by lia.
  rewrite map_shift_range. f_equal; lia.
Qed.

End RowFacts.


(** ** The ghost exchange *)

Lemma range_length_1 n : length (range 0 n 1) = Z.to_nat n.
Proof.
  unfold range. rewrite length_map, length_seq.
  replace (n - 0 + 1 - 1) with n by lia. now rewrite Z.div_1_r.
Qed.

Lemma nth_range_1 n i dflt :
  0 <= i < n -> nth (Z.to_nat i) (range 0 n 1) dflt = i.
Proof.
  intros Hi. unfold range.
  replace (n - 0 + 1 - 1) with n by lia. rewrite Z.div_1_r.
  set (f := fun t : nat => 0 + 1 * Z.of_nat t).
  rewrite nth_indep with (d':=f 0%nat)
    by (rewrite length_map, length_seq; lia).
  rewrite map_nth, seq_nth by lia. unfold f. lia.
Qed.

Section GhostFacts.

Context {T : Type}.

Lemma snapshot_length (m : buffer T) off count :
  length (snapshot m off count) = Z.to_nat count.
Proof. unfold snapshot. now rewrite length_map, range_length_1. Qed.

Lemma nth_snapshot (m : buffer T) off count i dflt :
  0 <= i < count ->
  nth (Z.to_nat i) (snapshot m off count) dflt = m (off + i).
Proof.
  intros Hi. unfold snapshot.
  set (f := fun i : Z => m (off + i)).
  rewrite nth_indep with (d':=f 0)
    by (rewrite length_map, range_length_1; lia).
  now rewrite map_nth, nth_range_1.
Qed.

Lemma take_message_finds rank rq (net : list (message T)) m0 :
  In m0 net -> matches rank rq m0 = true ->
  exists m rest, take_message rank rq net = Some (m, rest) /\
                 In m net /\ matches rank rq m = true.
Proof.
  induction net as [|m net IH]; intros Hin Hm; [destruct Hin|].
  cbn [take_message]. destruct (matches rank rq m) eqn:E.
  - exists m, net. repeat split; [now left|assumption].
  - destruct Hin as [->|Hin]; [congruence|].
    destruct (IH Hin Hm) as (m' & rest & -> & Hin' & Hm').
    exists m', (m :: rest). repeat split; [now right|assumption].
Qed.

Variable d0 : soi_desc_t T.
Variable alphas : Z -> buffer T.

Lemma ghost_issue_procs r w q :
  procs (ghost_issue (desc_of d0 r) (alphas r) w) q
  = if q =? r then issue_proc d0 alphas r (procs w r) else procs w q.
Proof.
  unfold ghost_issue, issue_proc, request_receive, MPI_Irecv, MPI_Isend, set_proc.
  cbn [procs network d_rank desc_of rq_src rq_off rq_count].
  rewrite Z.eqb_refl. destruct (q =? r); reflexivity.
Qed.

Lemma ghost_issue_network r w :
  network (ghost_issue (desc_of d0 r) (alphas r) w)
  = network w ++ [issue_message d0 alphas r].
Proof. reflexivity. Qed.

Lemma issue_all_network sched w :
  network (issue_all d0 alphas sched w)
  = network w ++ map (issue_message d0 alphas) sched.
Proof.
  unfold issue_all. revert w.
  induction sched as [|r sched IH]; intros w; cbn [fold_left map].
  - now rewrite app_nil_r.
  - rewrite IH, ghost_issue_network, <- app_assoc. reflexivity.
Qed.

Lemma issue_all_other sched w r :
  ~ In r sched -> procs (issue_all d0 alphas sched w) r = procs w r.
Proof.
  unfold issue_all. revert w.
  induction sched as [|q sched IH]; intros w Hn; [reflexivity|].
  cbn [fold_left]. rewrite IH by (intros H; apply Hn; now right).
  rewrite ghost_issue_procs.
  destruct (Z.eqb_spec r q) as [->|]; [|reflexivity].
  exfalso. apply Hn. now left.
Qed.

Lemma issue_all_own sched w r :
  NoDup sched -> In r sched ->
  procs (issue_all d0 alphas sched w) r = issue_proc d0 alphas r (procs w r).
Proof.
  revert w. induction sched as [|q sched IH]; intros w Hnd Hin; [destruct Hin|].
  inversion Hnd as [|? ? Hq Hnd']; subst.
  change (issue_all d0 alphas (q :: sched) w)
    with (issue_all d0 alphas sched (ghost_issue (desc_of d0 q) (alphas q) w)).
  destruct Hin as [->|Hin].
  - rewrite issue_all_other by assumption.
    rewrite ghost_issue_procs. now rewrite Z.eqb_refl.
  - rewrite IH by assumption. rewrite ghost_issue_procs.
    destruct (Z.eqb_spec r q) as [->|]; [contradiction|reflexivity].
Qed.

Hypothesis Hsizes : valid_sizes d0.
Hypothesis Hfits : ghost_fits d0.

Lemma S_desc r : S_ (desc_of d0 r) = S_ d0.
Proof. reflexivity. Qed.

Lemma S_nonneg : 0 <= S_ d0.
Proof. unfold S_, u64. apply Z.mod_pos_bound. lia. Qed.

Lemma b_cnt_exact r :
  b_cnt (desc_of d0 r) = M_ d0 / d_P d0 - K_0 d0 * d_d_mu d0
  /\ 0 <= b_cnt (desc_of d0 r) <= M_ d0 / d_P d0.
Proof.
  pose proof (K_0_exact Hsizes) as HK.
  destruct Hsizes as (HP & Hn & Hd & HN & HB & HM & _).
  change (b_cnt (desc_of d0 r)) with (b_cnt d0). unfold b_cnt.
  assert (HK0 : 0 <= K_0 d0) by (rewrite HK; apply Z.div_pos; lia).
  assert (HKd : K_0 d0 * d_d_mu d0 <= M_ d0 / d_P d0 - d_B d0).
  { rewrite HK. rewrite Z.mul_comm. apply Z.mul_div_le. lia. }
  rewrite (u64_small (x:=K_0 d0 * d_d_mu d0)) by nia.
  rewrite u64_small by nia. lia.
Qed.

Lemma n_elements_exact r :
  n_elements (desc_of d0 r) = (d_B d0 - d_d_mu d0) * S_ d0.
Proof.
  destruct Hsizes as (HP & Hn & Hd & HN & HB & HM & _).
  destruct Hfits as (HdB & Hfit & _). pose proof S_nonneg as HS.
  change (n_elements (desc_of d0 r)) with (n_elements d0). unfold n_elements.
  rewrite (u64_small (x:=d_B d0 - d_d_mu d0)) by lia.
  apply u64_small. nia.
Qed.

Lemma PID_right_desc r :
  0 <= r < d_P d0 -> PID_right (desc_of d0 r) = (r + 1) mod d_P d0.
Proof.
  intros Hr. destruct Hfits as (_ & _ & HP31).
  unfold PID_right. cbn [d_rank d_P desc_of].
  now rewrite u64_small by lia.
Qed.

Lemma PID_left_desc r :
  0 <= r < d_P d0 -> PID_left (desc_of d0 r) = (r - 1) mod d_P d0.
Proof.
  intros Hr. destruct Hfits as (_ & _ & HP31).
  unfold PID_left. cbn [d_rank d_P desc_of].
  rewrite !u64_small by (rewrite ?u64_small; lia).
  replace (d_P d0 + r - 1) with (r - 1 + 1 * d_P d0) by lia.
  apply Z.mod_add. lia.
Qed.

(** The successor's predecessor is the rank itself. *)
Lemma PID_left_of_right r :
  0 <= r < d_P d0 -> PID_left (desc_of d0 ((r + 1) mod d_P d0)) = r.
Proof.
  intros Hr.
  pose proof (Z.mod_pos_bound (r + 1) (d_P d0) ltac:(lia)) as Hm.
  rewrite PID_left_desc by lia.
  destruct (Z.eq_dec (r + 1) (d_P d0)) as [E|E].
  - rewrite E, Z.mod_same by lia. cbn.
    replace (-1) with (r + (-1) * d_P d0) by lia.
    rewrite Z.mod_add by lia. apply Z.mod_small. lia.
  - rewrite (Z.mod_small (r + 1)) by lia.
    replace (r + 1 - 1) with r by lia. apply Z.mod_small. lia.
Qed.

End GhostFacts.


(** ** Fatal configuration errors *)

Section ExitFacts.

Context {T : Type} {F : FloatOps T}.
Variable env : omp_env T.
Variable d : soi_desc_t T.
Variable alpha_dt : buffer T.
Variable w : world T.

(** Logging a diagnostic on rank 0 only refuses the run. *)
Lemma refused_log msg :
  refused (d_rank d) msg w
    (if 0 =? d_rank d
     then set_proc w (d_rank d) (log_stderr (procs w (d_rank d)) msg)
     else w).
Proof.
  unfold refused, untouched. rewrite (Z.eqb_sym (d_rank d) 0).
  destruct (0 =? d_rank d) eqn:E.
  - cbn [network procs set_proc]. rewrite Z.eqb_refl.
    repeat split; try reflexivity.
    intros q Hq. destruct (Z.eqb_spec q (d_rank d)); [contradiction|reflexivity].
  - repeat split; try reflexivity. now rewrite app_nil_r.
Qed.

Lemma dispatch_unsupported :
  ~ supported_ratio d ->
  parallel_filter_subsampling env d alpha_dt w
  = Exited (-1)
      (if 0 =? d_rank d
       then set_proc w (d_rank d) (log_stderr (procs w (d_rank d)) UnsupportedRatio)
       else w).
Proof.
  intros Hn. unfold parallel_filter_subsampling.
  destruct ((5 =? d_n_mu d) && (4 =? d_d_mu d)) eqn:E1.
  { exfalso. apply Hn. left. apply andb_prop in E1. destruct E1 as [E1 E2].
    apply Z.eqb_eq in E1, E2. lia. }
  destruct ((8 =? d_n_mu d) && (7 =? d_d_mu d)) eqn:E2.
  { exfalso. apply Hn. right. apply andb_prop in E2. destruct E2 as [E2 E3].
    apply Z.eqb_eq in E2, E3. lia. }
  reflexivity.
Qed.

(** With a supported ratio the dispatch runs the specialised stage. *)
Lemma dispatch_supported :
  supported_ratio d ->
  exists N_MU D_MU,
    N_MU = d_n_mu d /\ D_MU = d_d_mu d /\
    parallel_filter_subsampling env d alpha_dt w
    = parallel_filter_subsampling_tmpl N_MU D_MU env d alpha_dt w.
Proof.
  intros [[Hn Hd]|[Hn Hd]]; unfold parallel_filter_subsampling; rewrite Hn, Hd.
  - exists 5, 4. repeat split; reflexivity.
  - exists 8, 7. repeat split; reflexivity.
Qed.

Lemma start_too_small N_MU D_MU :
  d_P d <> 0 -> S_ d <> 0 -> d_d_mu d <> 0 -> M_ d / d_P d < d_B d ->
  start_stage N_MU D_MU env d alpha_dt w
  = Exited 0
      (if 0 =? d_rank d
       then set_proc w (d_rank d) (log_stderr (procs w (d_rank d)) InputSizeTooSmall)
       else w).
Proof.
  intros HP HS Hd Hlt. unfold start_stage.
  destruct (Z.eqb_spec (d_P d) 0); [contradiction|].
  destruct (Z.eqb_spec (S_ d) 0); [contradiction|].
  destruct (Z.eqb_spec (d_d_mu d) 0); [contradiction|].
  destruct (Z.ltb_spec (M_ d / d_P d) (d_B d)); [reflexivity|lia].
Qed.

Lemma start_too_few_threads N_MU D_MU :
  d_P d <> 0 -> S_ d <> 0 -> d_d_mu d <> 0 -> d_B d <= M_ d / d_P d ->
  0 <= nthreads env < num_thread_groups d ->
  start_stage N_MU D_MU env d alpha_dt w
  = if 0 =? d_rank d
    then Exited (-1)
           (set_proc (ghost_issue d alpha_dt w) (d_rank d)
              (log_stderr (procs (ghost_issue d alpha_dt w) (d_rank d))
                 (TooFewThreads (num_thread_groups d))))
    else Undefined.
Proof.
  intros HP HS Hd Hge Hth. unfold start_stage.
  destruct (Z.eqb_spec (d_P d) 0); [contradiction|].
  destruct (Z.eqb_spec (S_ d) 0); [contradiction|].
  destruct (Z.eqb_spec (d_d_mu d) 0); [contradiction|].
  destruct (Z.ltb_spec (M_ d / d_P d) (d_B d)); [lia|].
  destruct (Z.ltb_spec (nthreads env) (num_thread_groups d)); [|lia].
  destruct (0 =? d_rank d); cbn [andb]; [reflexivity|].
  destruct (Z.eqb_spec (num_thread_groups d) 0); [reflexivity|].
  unfold threads_per_group. rewrite Z.div_small by lia. reflexivity.
Qed.

End ExitFacts.

Lemma supported_ratio_dec {T} (d : soi_desc_t T) :
  {supported_ratio d} + {~ supported_ratio d}.
Proof.
  unfold supported_ratio.
  destruct (Z.eq_dec (d_n_mu d) 5), (Z.eq_dec (d_d_mu d) 4),
           (Z.eq_dec (d_n_mu d) 8), (Z.eq_dec (d_d_mu d) 7);
    (left; lia) || (right; lia).
Qed.

Lemma ghost_issue_stderr {T} (d : soi_desc_t T) (alpha_dt : buffer T) (w : world T) :
  stderr (procs (ghost_issue d alpha_dt w) (d_rank d)) = stderr (procs w (d_rank d)).
Proof.
  unfold ghost_issue, MPI_Isend, set_proc. cbn [procs network].
  rewrite !Z.eqb_refl. reflexivity.
Qed.

(** C7. For every pair [(n_mu, d_mu)] other than (5,4) and (8,7) the call
    ends in [exit(-1)] on every process, the message is written once, on
    the process of rank 0 only, and nothing is produced: no buffer of the
    process is written, nothing is sent and nothing is computed. *)
Theorem unsupported_ratio_is_fatal {T} {F : FloatOps T} (env : omp_env T)
    (d : soi_desc_t T) (alpha_dt : buffer T) (w : world T) :
  ~ supported_ratio d ->
  exists w',
    parallel_filter_subsampling env d alpha_dt w = Exited (-1) w'
    /\ refused (d_rank d) UnsupportedRatio w w'.
Proof.
  intros Hn. eexists. split.
  - now apply dispatch_unsupported.
  - apply refused_log.
Qed.

(** C8. When [M/P < B] the stage refuses to run: the process exits before
    any communication or computation, the diagnostic is written once, on
    the process of rank 0 only, and no buffer of the descriptor is modified.
    With a supported ratio the diagnostic is that of the guard of line 89;
    with another ratio the dispatch has refused before. *)
Theorem input_too_small_refuses {T} {F : FloatOps T} (env : omp_env T)
    (d : soi_desc_t T) (alpha_dt : buffer T) (w : world T) :
  d_P d <> 0 -> S_ d <> 0 -> M_ d / d_P d < d_B d ->
  exists code msg w',
    parallel_filter_subsampling env d alpha_dt w = Exited code w'
    /\ refused (d_rank d) msg w w'
    /\ (supported_ratio d -> code = 0 /\ msg = InputSizeTooSmall).
Proof.
  intros HP HS Hlt.
  destruct (supported_ratio_dec d) as [Hs|Hn].
  - destruct (dispatch_supported env alpha_dt w Hs) as (N_MU & D_MU & _ & _ & ->).
    exists 0, InputSizeTooSmall. eexists. split; [|split].
    + unfold parallel_filter_subsampling_tmpl.
      rewrite start_too_small; try assumption; [reflexivity|].
      destruct Hs as [[_ ->]|[_ ->]]; discriminate.
    + apply refused_log.
    + intros _. split; reflexivity.
  - exists (-1), UnsupportedRatio. eexists. split; [|split].
    + now apply dispatch_unsupported.
    + apply refused_log.
    + intros Hs. contradiction.
Qed.

(** C10. The three configuration errors, each on a descriptor of its own:
    with [M/P < B] the process calls [exit(0)]; with an unsupported ratio it
    calls [exit(-1)]; in both cases every rank exits and the message appears
    on rank 0 only.  With fewer threads than thread groups only rank 0
    writes the message and calls [exit(-1)]: another rank passes the guard
    and goes on to the parallel region, where its first statement divides
    by [nthreads/num_thread_groups = 0]. *)
Theorem exit_statuses_differ {T} {F : FloatOps T} (env : omp_env T)
    (d_small d_ratio d_threads : soi_desc_t T) (alpha_dt : buffer T) (w : world T) :
  supported_ratio d_small -> d_P d_small <> 0 -> S_ d_small <> 0 ->
  M_ d_small / d_P d_small < d_B d_small ->
  ~ supported_ratio d_ratio ->
  supported_ratio d_threads -> d_P d_threads <> 0 -> S_ d_threads <> 0 ->
  d_B d_threads <= M_ d_threads / d_P d_threads ->
  0 <= nthreads env < num_thread_groups d_threads ->
  (exists w', parallel_filter_subsampling env d_small alpha_dt w = Exited 0 w'
              /\ refused (d_rank d_small) InputSizeTooSmall w w')
  /\ (exists w', parallel_filter_subsampling env d_ratio alpha_dt w = Exited (-1) w'
                 /\ refused (d_rank d_ratio) UnsupportedRatio w w')
  /\ (if 0 =? d_rank d_threads
      then exists w',
             parallel_filter_subsampling env d_threads alpha_dt w = Exited (-1) w'
             /\ stderr (procs w' (d_rank d_threads))
                = stderr (procs w (d_rank d_threads))
                  ++ [TooFewThreads (num_thread_groups d_threads)]
      else parallel_filter_subsampling env d_threads alpha_dt w = Undefined).
Proof.
  intros Hs1 HP1 HS1 Hlt Hn2 Hs3 HP3 HS3 Hge Hth.
  split; [|split].
  - destruct (dispatch_supported env alpha_dt w Hs1) as (N_MU & D_MU & _ & _ & ->).
    eexists. split; [|apply refused_log].
    unfold parallel_filter_subsampling_tmpl.
    rewrite start_too_small; try assumption; [reflexivity|].
    destruct Hs1 as [[_ ->]|[_ ->]]; discriminate.
  - eexists. split; [now apply dispatch_unsupported|apply refused_log].
  - destruct (dispatch_supported env alpha_dt w Hs3) as (N_MU & D_MU & _ & _ & ->).
    unfold parallel_filter_subsampling_tmpl.
    rewrite start_too_few_threads; try assumption.
    2:{ destruct Hs3 as [[_ ->]|[_ ->]]; discriminate. }
    destruct (0 =? d_rank d_threads); [|reflexivity].
    eexists. split; [reflexivity|].
    cbn [procs set_proc]. rewrite Z.eqb_refl. cbn [stderr log_stderr].
    now rewrite ghost_issue_stderr.
Qed.

(** ** The register-blocked kernel *)

Section RingFacts.

Context {T : Type}.

Lemma writes_vset (i : Z) (v : SIMDFPTYPE T) :
  writes (fun b => vset b i v) (vset_write i v).
Proof.
  intros b a. unfold vset, overlay, vset_write. now destruct (a =? i).
Qed.

Lemma then_write_some {A} (W1 W2 : Z -> option A) a v :
  then_write W1 W2 a = Some v -> W2 a = Some v \/ W1 a = Some v.
Proof. unfold then_write. destruct (W2 a); intros H; [left|right]; assumption. Qed.

Lemma vset_write_inv i (v : SIMDFPTYPE T) a x :
  vset_write i v a = Some x -> a = i /\ x = v.
Proof.
  unfold vset_write. case_eqb; [intros [= <-]; now split|discriminate].
Qed.

(** Two slots of the ring that hold different segments of a window of at
    most [input_buffer_len] segments are different. *)
Lemma ring_slot_inj ptr k k' :
  0 <= k < input_buffer_len -> 0 <= k' < input_buffer_len ->
  (ptr + k) mod input_buffer_len = (ptr + k') mod input_buffer_len -> k = k'.
Proof.
  unfold input_buffer_len. intros Hk Hk' E.
  pose proof (Z.div_mod (ptr + k) 128 ltac:(lia)) as H1.
  pose proof (Z.div_mod (ptr + k') 128 ltac:(lia)) as H2.
  rewrite E in H1.
  generalize dependent ((ptr + k) / 128). generalize dependent ((ptr + k') / 128).
  generalize dependent ((ptr + k') mod 128). intros. lia.
Qed.

Lemma ring_slot_bound ptr k :
  0 <= (ptr + k) mod input_buffer_len < input_buffer_len.
Proof. apply Z.mod_pos_bound. reflexivity. Qed.

Variable d : soi_desc_t T.
Variable alpha_dt : buffer T.
Variables N_MU D_MU i : Z.

Lemma ring_step_write_hit slot row ii :
  0 <= ii < 2 ->
  ring_step_write d alpha_dt i slot row (slot * 2 + ii) = Some (seg_load d alpha_dt i row ii).
Proof.
  intros Hii. unfold ring_step_write, then_write, vset_write.
  assert (H : ii = 0 \/ ii = 1) by lia.
  destruct H as [-> | ->]; repeat (case_eqb; try lia); reflexivity.
Qed.

Lemma ring_step_write_miss slot row slot' ii :
  0 <= ii < 2 -> slot <> slot' ->
  ring_step_write d alpha_dt i slot row (slot' * 2 + ii) = None.
Proof.
  intros Hii Hne. unfold ring_step_write, then_write, vset_write.
  repeat (case_eqb; try lia). reflexivity.
Qed.

Lemma writes_fill j_begin :
  writes (fill_input_buffer d alpha_dt i j_begin)
    (last_write (fun k => ring_step_write d alpha_dt i k (j_begin * d_d_mu d + k))
       (range 0 (u64 (d_B d - d_d_mu d)) 1)).
Proof.
  unfold fill_input_buffer. apply writes_for_loop. intros k _.
  unfold ring_step_write, seg_load.
  replace (2 * k) with (k * 2) by lia.
  replace (2 * ((j_begin * d_d_mu d + k) * S_ d + i) + 0 * SIMD_WIDTH)
    with (2 * ((j_begin * d_d_mu d + k) * S_ d + i)) by lia.
  replace (2 * ((j_begin * d_d_mu d + k) * S_ d + i) + 1 * SIMD_WIDTH)
    with (2 * ((j_begin * d_d_mu d + k) * S_ d + i) + SIMD_WIDTH) by lia.
  apply (@writes_seq (SIMDFPTYPE T)
           (fun b => vset b (k * 2)
              (_MM_LOAD alpha_dt (2 * ((j_begin * d_d_mu d + k) * S_ d + i))))
           (fun b => vset b (k * 2 + 1)
              (_MM_LOAD alpha_dt (2 * ((j_begin * d_d_mu d + k) * S_ d + i) + SIMD_WIDTH))));
    apply writes_vset.
Qed.


Lemma writes_advance j0 ptr :
  writes (advance_input_buffer N_MU D_MU d alpha_dt i j0 ptr)
    (last_write
       (fun k => ring_step_write d alpha_dt i
                   ((ptr + d_B d - d_d_mu d + k) mod input_buffer_len)
                   (j0 * d_d_mu d + d_B d - d_d_mu d + k))
       (range 0 (D_MU * J_UNROLL_FACTOR N_MU) 1)).
Proof.
  unfold advance_input_buffer. apply writes_for_loop. intros k _.
  unfold ring_step_write, seg_load.
  replace (2 * ((j0 * d_d_mu d + d_B d - d_d_mu d + k) * S_ d + i) + 0 * SIMD_WIDTH)
    with (2 * ((j0 * d_d_mu d + d_B d - d_d_mu d + k) * S_ d + i)) by lia.
  replace (2 * ((j0 * d_d_mu d + d_B d - d_d_mu d + k) * S_ d + i) + 1 * SIMD_WIDTH)
    with (2 * ((j0 * d_d_mu d + d_B d - d_d_mu d + k) * S_ d + i) + SIMD_WIDTH) by lia.
  apply (@writes_seq (SIMDFPTYPE T)
           (fun b => vset b ((ptr + d_B d - d_d_mu d + k) mod input_buffer_len * 2)
              (_MM_LOAD alpha_dt
                 (2 * ((j0 * d_d_mu d + d_B d - d_d_mu d + k) * S_ d + i))))
           (fun b => vset b ((ptr + d_B d - d_d_mu d + k) mod input_buffer_len * 2 + 1)
              (_MM_LOAD alpha_dt
                 (2 * ((j0 * d_d_mu d + d_B d - d_d_mu d + k) * S_ d + i) + SIMD_WIDTH))));
    apply writes_vset.
Qed.

Hypothesis HD : D_MU = d_d_mu d.
Hypothesis Hd : 0 < d_d_mu d <= d_B d.
Hypothesis Hring :
  d_B d + (J_UNROLL_FACTOR N_MU - 1) * d_d_mu d <= input_buffer_len.

Let n := d_B d - d_d_mu d.
Let JU := J_UNROLL_FACTOR N_MU.

Lemma ring_sizes : 0 <= n /\ 1 <= JU /\ n + d_d_mu d * JU <= input_buffer_len.
Proof.
  pose proof (J_UNROLL_FACTOR_pos N_MU) as HJ. fold JU in HJ.
  unfold n. fold JU in Hring. repeat split; try lia.
Qed.

(** After lines 169-172 the ring holds the first [B - d_mu] segments of the
    first row group of the thread. *)
Lemma fill_ring j_begin ib :
  ring_holds d alpha_dt i j_begin n 0 (fill_input_buffer d alpha_dt i j_begin ib).
Proof.
  destruct ring_sizes as (Hn & HJ & Hlen). unfold input_buffer_len in Hlen.
  split; [unfold input_buffer_len; lia|].
  intros k ii Hk Hii. cbn [Z.add].
  rewrite Z.mod_small by (unfold input_buffer_len; nia).
  rewrite writes_fill. fold n. rewrite u64_small by nia.
  apply overlay_some.
  rewrite last_write_unique with (i0 := k).
  - now apply ring_step_write_hit.
  - apply in_range_1. lia.
  - intros k' _ Hne. now apply ring_step_write_miss.
Qed.

(** Lines 177-183 extend what the ring holds by the [d_mu*J_UNROLL_FACTOR]
    segments loaded. *)
Lemma advance_ring j0 ptr ib :
  ring_holds d alpha_dt i j0 n ptr ib ->
  ring_holds d alpha_dt i j0 (n + d_d_mu d * JU) ptr
    (advance_input_buffer N_MU D_MU d alpha_dt i j0 ptr ib).
Proof.
  destruct ring_sizes as (Hn & HJ & Hlen).
  intros [Hptr Hib]. split; [assumption|].
  intros k ii Hk Hii. rewrite writes_advance. rewrite HD. fold JU.
  destruct (Z_lt_le_dec k n) as [Hlt|Hge].
  - rewrite overlay_none; [now apply Hib|].
    apply last_write_none. intros k' Hk'. apply in_range_1 in Hk'.
    apply ring_step_write_miss; [assumption|].
    intros E. replace (ptr + d_B d - d_d_mu d + k') with (ptr + (n + k')) in E
      by (unfold n; lia).
    apply ring_slot_inj in E; lia.
  - apply overlay_some.
    rewrite last_write_unique with (i0 := k - n).
    + replace (ptr + d_B d - d_d_mu d + (k - n)) with (ptr + k) by (unfold n; lia).
      replace (j0 * d_d_mu d + d_B d - d_d_mu d + (k - n)) with (j0 * d_d_mu d + k)
        by (unfold n; lia).
      now apply ring_step_write_hit.
    + apply in_range_1. lia.
    + intros k' Hk' Hne. apply in_range_1 in Hk'.
      apply ring_step_write_miss; [assumption|].
      intros E. replace (ptr + d_B d - d_d_mu d + k') with (ptr + (n + k')) in E
        by (unfold n; lia).
      apply ring_slot_inj in E; lia.
Qed.

(** Line 285 moves the start of the ring to the segments of the next row
    group. *)
Lemma shift_ring j0 ptr ib :
  ring_holds d alpha_dt i j0 (n + d_d_mu d * JU) ptr ib ->
  ring_holds d alpha_dt i (j0 + JU) n ((ptr + d_d_mu d * JU) mod input_buffer_len) ib.
Proof.
  destruct ring_sizes as (Hn & HJ & Hlen).
  intros [Hptr Hib]. split; [apply Z.mod_pos_bound; reflexivity|].
  intros k ii Hk Hii.
  rewrite Z.add_mod_idemp_l by (unfold input_buffer_len; lia).
  replace (ptr + d_d_mu d * JU + k) with (ptr + (d_d_mu d * JU + k)) by lia.
  rewrite Hib by nia. unfold seg_load. f_equal. nia.
Qed.

End RingFacts.

Lemma THETA_UNROLL_FACTOR_eq N_MU :
  N_MU <= REG_BLOCK_SIZE -> THETA_UNROLL_FACTOR N_MU = N_MU.
Proof.
  intros H. unfold THETA_UNROLL_FACTOR.
  destruct (Z.leb_spec N_MU REG_BLOCK_SIZE); lia.
Qed.

Section BlockedFacts.

Context {T : Type} {F : FloatOps T}.
Variable d : soi_desc_t T.
Variable alpha_dt : buffer T.
Variables N_MU D_MU : Z.

Hypothesis HN : N_MU = d_n_mu d.
Hypothesis HD : D_MU = d_d_mu d.
Hypothesis HNr : 0 < N_MU <= REG_BLOCK_SIZE.
Hypothesis Hd : 0 < d_d_mu d <= d_B d.
Hypothesis Hring :
  d_B d + (J_UNROLL_FACTOR N_MU - 1) * d_d_mu d <= input_buffer_len.
Hypothesis Hdup : w_dup_duplicated d.

Let n := d_B d - d_d_mu d.
Let JU := J_UNROLL_FACTOR N_MU.

(** An accumulator array updated element by element is, element by
    element, a scalar accumulation. *)
Lemma fold_left_pointwise {V} (G : Z -> V -> Z -> Z -> Z -> V) l :
  forall (temp0 : Z -> Z -> Z -> V) j th ii,
    fold_left (fun temp k => fun j th ii => G k (temp j th ii) j th ii) l temp0 j th ii
    = fold_left (fun v k => G k v j th ii) l (temp0 j th ii).
Proof.
  induction l as [|k l IH]; intros temp0 j th ii; [reflexivity|].
  cbn [fold_left]. now rewrite IH.
Qed.

(** The accumulator of row [j0 + j], oversampling index [theta_0 + theta]
    and register pair [ii] holds, in lanes [2t] and [2t+1], the sum that the
    simple kernels compute. *)
Lemma accumulate_lane q j0 ptr ib theta_0 j theta ii t :
  ring_holds d alpha_dt (4 * q) j0 (n + d_d_mu d * JU) ptr ib ->
  0 <= q -> 0 <= j < JU -> 0 <= ii < 2 -> 0 <= t < 2 ->
  clane t (blocked_accumulate N_MU d ib (4 * q) ptr theta_0 j theta ii)
  = conv_spec d alpha_dt (j0 + j) (theta_0 + theta) (4 * q + 2 * ii + t).
Proof.
  intros [Hptr Hib] Hq Hj Hii Ht.
  assert (Hy : forall k, 0 <= k < d_B d ->
            ib ((ptr + j * d_d_mu d + k) mod input_buffer_len * 2 + ii)
            = _MM_LOAD alpha_dt
                (2 * (((j0 + j) * d_d_mu d + k) * S_ d + 4 * q) + ii * SIMD_WIDTH)).
  { intros k Hk.
    replace (ptr + j * d_d_mu d + k) with (ptr + (j * d_d_mu d + k)) by lia.
    rewrite Hib by (unfold n; nia). unfold seg_load.
    replace (j0 * d_d_mu d + (j * d_d_mu d + k)) with ((j0 + j) * d_d_mu d + k) by lia.
    reflexivity. }
  unfold blocked_accumulate. cbv zeta. unfold for_loop.
  rewrite (fold_left_pointwise
    (fun kkk v j theta ii =>
       _MM_ADD v
         (cmul_simd
            (d_w_dup d (4 * q * d_B d * N_MU
                        + (kkk * N_MU + theta_0 + theta) * (CACHE_LINE_LEN / 2) + ii * 2))
            (d_w_dup d (4 * q * d_B d * N_MU
                        + (kkk * N_MU + theta_0 + theta) * (CACHE_LINE_LEN / 2) + ii * 2 + 1))
            (ib ((ptr + j * d_d_mu d + kkk) mod input_buffer_len * 2 + ii))))).
  unfold conv_spec.
  apply (fold_left_rel (fun v acc => clane t v = acc)).
  - intros k a b Hk <-. apply in_range_1 in Hk.
    rewrite clane_add. f_equal. rewrite Hy by lia.
    apply clane_term; try assumption.
    rewrite HN. change (CACHE_LINE_LEN / 2) with 4. lia.
  - rewrite Hy by lia.
    replace ((j0 + j) * d_d_mu d) with ((j0 + j) * d_d_mu d + 0) at 2 by lia.
    apply clane_term; try assumption.
    rewrite HN. change (CACHE_LINE_LEN / 2) with 4. lia.
Qed.

End BlockedFacts.

Section StoreFacts.

Context {T : Type} {F : FloatOps T}.

Lemma store_write_lane p (v : SIMDFPTYPE T) a x :
  store_write p v a = Some x ->
  exists t r, 0 <= t < 2 /\ 0 <= r < 2 /\ a = p + 2 * t + r /\ x = comp r (clane t v).
Proof.
  intros H. apply store_write_inv in H.
  destruct H as [[-> ->]|[[-> ->]|[[-> ->]|[-> ->]]]].
  - exists 0, 0. repeat split; lia.
  - exists 0, 1. repeat split; lia.
  - exists 1, 0. repeat split; lia.
  - exists 1, 1. repeat split; lia.
Qed.

Lemma store_write_at p (v : SIMDFPTYPE T) t r :
  0 <= t < 2 -> 0 <= r < 2 ->
  store_write p v (p + 2 * t + r) = Some (comp r (clane t v)).
Proof.
  intros Ht Hr. unfold store_write.
  assert (Ht' : t = 0 \/ t = 1) by lia. assert (Hr' : r = 0 \/ r = 1) by lia.
  destruct Ht' as [-> | ->], Hr' as [-> | ->];
    repeat (case_eqb; try lia); reflexivity.
Qed.

Lemma store_pair_write_lane p (v0 v1 : SIMDFPTYPE T) a x :
  store_pair_write p v0 v1 a = Some x ->
  exists ii t r, 0 <= ii < 2 /\ 0 <= t < 2 /\ 0 <= r < 2 /\
    a = p + 4 * ii + 2 * t + r /\
    x = comp r (clane t (if ii =? 0 then v0 else v1)).
Proof.
  intros H. apply then_write_some in H.
  destruct H as [H|H]; apply store_write_lane in H;
    destruct H as (t & r & Ht & Hr & -> & ->).
  - exists 1, t, r. change SIMD_WIDTH with 4. repeat split; lia.
  - exists 0, t, r. repeat split; lia.
Qed.

Lemma store_pair_write_at p (v0 v1 : SIMDFPTYPE T) ii t r :
  0 <= ii < 2 -> 0 <= t < 2 -> 0 <= r < 2 ->
  exists x, store_pair_write p v0 v1 (p + 4 * ii + 2 * t + r) = Some x.
Proof.
  intros Hii Ht Hr. unfold store_pair_write, then_write. change SIMD_WIDTH with 4.
  assert (Hii' : ii = 0 \/ ii = 1) by lia. destruct Hii' as [-> | ->].
  - destruct (store_write (p + 4) v1 (p + 4 * 0 + 2 * t + r)); [eexists; reflexivity|].
    replace (p + 4 * 0 + 2 * t + r) with (p + 2 * t + r) by lia.
    rewrite store_write_at by assumption. eexists; reflexivity.
  - replace (p + 4 * 1 + 2 * t + r) with (p + 4 + 2 * t + r) by lia.
    rewrite store_write_at by assumption. eexists; reflexivity.
Qed.

Variable d : soi_desc_t T.
Variable alpha_dt : buffer T.

Lemma cell_val_at row theta s r :
  0 <= theta < d_n_mu d -> 0 <= s < S_ d -> 0 <= r < 2 ->
  cell_val d alpha_dt (cell_addr d row theta s r)
  = comp r (conv_spec d alpha_dt row theta s).
Proof.
  intros Ht Hs Hr. unfold cell_val, cell_addr.
  set (b := row * d_n_mu d + theta). set (c := S_ d * b + s).
  assert (E1 : (2 * c + r) / 2 = c)
    by (symmetry; apply (Z.div_unique _ 2 c r); lia).
  assert (E2 : (2 * c + r) mod 2 = r)
    by (symmetry; apply (Z.mod_unique _ 2 c r); lia).
  assert (E3 : c / S_ d = b)
    by (symmetry; apply (Z.div_unique _ (S_ d) b s); [lia|reflexivity]).
  assert (E4 : c mod S_ d = s)
    by (symmetry; apply (Z.mod_unique _ (S_ d) b s); [lia|reflexivity]).
  assert (E5 : b / d_n_mu d = row)
    by (symmetry; apply (Z.div_unique _ (d_n_mu d) row theta); [lia|unfold b; lia]).
  assert (E6 : b mod d_n_mu d = theta)
    by (symmetry; apply (Z.mod_unique _ (d_n_mu d) row theta); [lia|unfold b; lia]).
  cbv zeta. now rewrite E1, E2, E3, E4, E5, E6.
Qed.

Variable N_MU : Z.

Lemma writes_blocked_store temp v_tmp theta_0 :
  writes (blocked_store N_MU d temp v_tmp theta_0)
         (blocked_store_write N_MU d temp v_tmp theta_0).
Proof.
  unfold blocked_store, blocked_store_write.
  apply writes_for_loop. intros j _. apply writes_for_loop. intros theta _.
  unfold store_pair_write.
  apply (@writes_seq T
           (fun g => _MM_STREAM g (2 * (v_tmp + S_ d * (j * N_MU + theta_0 + theta)))
                       (temp j theta 0))
           (fun g => _MM_STREAM g
                       (2 * (v_tmp + S_ d * (j * N_MU + theta_0 + theta)) + SIMD_WIDTH)
                       (temp j theta 1)));
    apply writes_stream.
Qed.

(** Whatever lines 263-274 write is a lane pair of an accumulator. *)
Lemma blocked_store_sound temp v_tmp theta_0 a x :
  blocked_store_write N_MU d temp v_tmp theta_0 a = Some x ->
  exists j theta ii t r,
    0 <= j < J_UNROLL_FACTOR N_MU /\ 0 <= theta < THETA_UNROLL_FACTOR N_MU /\
    0 <= ii < 2 /\ 0 <= t < 2 /\ 0 <= r < 2 /\
    a = 2 * (v_tmp + S_ d * (j * N_MU + theta_0 + theta)) + 4 * ii + 2 * t + r /\
    x = comp r (clane t (temp j theta ii)).
Proof.
  intros H. unfold blocked_store_write in H.
  apply last_write_some in H. destruct H as (j & Hj & H).
  apply last_write_some in H. destruct H as (theta & Hth & H).
  apply in_range_1 in Hj, Hth.
  apply store_pair_write_lane in H.
  destruct H as (ii & t & r & Hii & Ht & Hr & -> & ->).
  exists j, theta, ii, t, r. repeat split; try lia.
  assert (Hii' : ii = 0 \/ ii = 1) by lia.
  destruct Hii' as [-> | ->]; reflexivity.
Qed.

(** Lines 263-274 write every lane pair of every accumulator. *)
Lemma blocked_store_complete temp v_tmp theta_0 j theta ii t r :
  0 <= j < J_UNROLL_FACTOR N_MU -> 0 <= theta < THETA_UNROLL_FACTOR N_MU ->
  0 <= ii < 2 -> 0 <= t < 2 -> 0 <= r < 2 ->
  exists x,
    blocked_store_write N_MU d temp v_tmp theta_0
      (2 * (v_tmp + S_ d * (j * N_MU + theta_0 + theta)) + 4 * ii + 2 * t + r)
    = Some x.
Proof.
  intros Hj Hth Hii Ht Hr. unfold blocked_store_write.
  set (a := 2 * (v_tmp + S_ d * (j * N_MU + theta_0 + theta)) + 4 * ii + 2 * t + r).
  destruct (store_pair_write_at
              (2 * (v_tmp + S_ d * (j * N_MU + theta_0 + theta)))
              (temp j theta 0) (temp j theta 1) Hii Ht Hr) as (x & Hx).
  fold a in Hx.
  destruct (last_write_some_intro
              (fun theta =>
                 store_pair_write (2 * (v_tmp + S_ d * (j * N_MU + theta_0 + theta)))
                   (temp j theta 0) (temp j theta 1))
              (range 0 (THETA_UNROLL_FACTOR N_MU) 1) a theta (v:=x))
    as (x' & Hx'); [apply in_range_1; lia|exact Hx|].
  apply (last_write_some_intro
           (fun j =>
              last_write
                (fun theta =>
                   store_pair_write (2 * (v_tmp + S_ d * (j * N_MU + theta_0 + theta)))
                     (temp j theta 0) (temp j theta 1))
                (range 0 (THETA_UNROLL_FACTOR N_MU) 1))
           (range 0 (J_UNROLL_FACTOR N_MU) 1) a j (v:=x'));
    [apply in_range_1; lia|exact Hx'].
Qed.

End StoreFacts.

Section BlockedLoops.

Context {T : Type} {F : FloatOps T}.
Variable d : soi_desc_t T.
Variable alpha_dt : buffer T.
Variables N_MU D_MU : Z.

Hypothesis HN : N_MU = d_n_mu d.
Hypothesis HD : D_MU = d_d_mu d.
Hypothesis HNr : 0 < N_MU <= REG_BLOCK_SIZE.
Hypothesis Hd : 0 < d_d_mu d <= d_B d.
Hypothesis Hring :
  d_B d + (J_UNROLL_FACTOR N_MU - 1) * d_d_mu d <= input_buffer_len.
Hypothesis Hdup : w_dup_duplicated d.

Let n := d_B d - d_d_mu d.
Let JU := J_UNROLL_FACTOR N_MU.

Lemma conv_safe_refl g : conv_safe d alpha_dt g g.
Proof. intros a. now left. Qed.

Lemma conv_safe_trans g1 g2 g3 :
  conv_safe d alpha_dt g1 g2 -> conv_safe d alpha_dt g2 g3 ->
  conv_safe d alpha_dt g1 g3.
Proof.
  intros H12 H23 a. destruct (H23 a) as [E|E]; [|now right].
  rewrite E. apply H12.
Qed.

Lemma conv_done_safe i j_lo j_hi g g' :
  conv_done d alpha_dt i j_lo j_hi g -> conv_safe d alpha_dt g g' ->
  conv_done d alpha_dt i j_lo j_hi g'.
Proof.
  intros Hdone Hsafe row theta delta r Hrow Ht Hdl Hr.
  destruct (Hsafe (cell_addr d row theta (i + delta) r)) as [E|E]; [|assumption].
  rewrite E. now apply Hdone.
Qed.

(** One row group, lines 174-286. *)
Lemma row_group_spec q j0 ib ptr gamma :
  0 <= q -> 4 * q + 4 <= S_ d ->
  ring_holds d alpha_dt (4 * q) j0 n ptr ib ->
  let st' := blocked_row_group N_MU D_MU d alpha_dt (4 * q) j0 (ib, ptr, gamma) in
  ring_holds d alpha_dt (4 * q) (j0 + JU) n (snd (fst st')) (fst (fst st'))
  /\ conv_done d alpha_dt (4 * q) j0 (j0 + JU) (snd st')
  /\ conv_safe d alpha_dt gamma (snd st').
Proof.
  intros Hq Hcol Hr0 st'.
  pose proof (@advance_ring T d alpha_dt N_MU D_MU (4 * q) HD Hd Hring j0 ptr ib Hr0)
    as Hr1.
  fold n JU in Hr1.
  unfold st', blocked_row_group. cbn [fst snd].
  rewrite THETA_UNROLL_FACTOR_eq by lia.
  rewrite for_loop_cons by lia. rewrite for_loop_nil by lia.
  set (ib' := advance_input_buffer N_MU D_MU d alpha_dt (4 * q) j0 ptr ib) in *.
  set (temp := blocked_accumulate N_MU d ib' (4 * q) ptr 0).
  set (v_tmp := S_ d * j0 * N_MU + 4 * q).
  assert (Hsound : forall a x,
            blocked_store_write N_MU d temp v_tmp 0 a = Some x ->
            x = cell_val d alpha_dt a).
  { intros a x Hx. apply blocked_store_sound in Hx.
    destruct Hx as (j & theta & ii & t & r & Hj & Hth & Hii & Ht & Hr & -> & ->).
    rewrite THETA_UNROLL_FACTOR_eq in Hth by lia.
    unfold temp.
    rewrite (@accumulate_lane T F d alpha_dt N_MU HN Hd Hdup q j0 ptr ib' 0 j theta ii t)
      by assumption.
    replace (2 * (v_tmp + S_ d * (j * N_MU + 0 + theta)) + 4 * ii + 2 * t + r)
      with (cell_addr d (j0 + j) theta (4 * q + 2 * ii + t) r)
      by (unfold cell_addr, v_tmp; rewrite <- HN; lia).
    rewrite cell_val_at by lia. reflexivity. }
  split; [|split].
  - apply (@shift_ring T d alpha_dt N_MU (4 * q) Hd Hring). exact Hr1.
  - intros row theta delta r Hrow Ht Hdl Hr.
    rewrite writes_blocked_store.
    assert (Hdec : exists ii t, 0 <= ii < 2 /\ 0 <= t < 2 /\ delta = 2 * ii + t).
    { assert (Hc : delta = 0 \/ delta = 1 \/ delta = 2 \/ delta = 3) by lia.
      destruct Hc as [ -> | [ -> | [ -> | -> ] ] ];
        [exists 0, 0|exists 0, 1|exists 1, 0|exists 1, 1]; lia. }
    destruct Hdec as (ii & t & Hii & Htt & ->).
    assert (Hth' : 0 <= theta < THETA_UNROLL_FACTOR N_MU)
      by (rewrite THETA_UNROLL_FACTOR_eq by lia; lia).
    assert (Hj' : 0 <= row - j0 < J_UNROLL_FACTOR N_MU) by (fold JU; lia).
    destruct (@blocked_store_complete T d N_MU temp v_tmp 0
                (row - j0) theta ii t r Hj' Hth' Hii Htt Hr) as (x & Hx).
    replace (2 * (v_tmp + S_ d * ((row - j0) * N_MU + 0 + theta)) + 4 * ii + 2 * t + r)
      with (cell_addr d row theta (4 * q + (2 * ii + t)) r) in Hx
      by (unfold cell_addr, v_tmp; rewrite <- HN; lia).
    rewrite (overlay_some _ _ _ Hx). now apply Hsound.
  - intros a. rewrite writes_blocked_store. unfold overlay.
    destruct (blocked_store_write N_MU d temp v_tmp 0 a) as [x|] eqn:E.
    + right. now apply Hsound.
    + now left.
Qed.

(** The row groups of a thread, lines 174-286, from any group on. *)
Lemma row_groups_spec q j_end :
  0 <= q -> 4 * q + 4 <= S_ d ->
  forall j0 ib ptr gamma,
    ring_holds d alpha_dt (4 * q) j0 n ptr ib ->
    let st' := for_loop j0 j_end JU (blocked_row_group N_MU D_MU d alpha_dt (4 * q))
                 (ib, ptr, gamma) in
    conv_done d alpha_dt (4 * q) j0 j_end (snd st')
    /\ conv_safe d alpha_dt gamma (snd st').
Proof.
  intros Hq Hcol j0. unfold for_loop.
  pose proof (J_UNROLL_FACTOR_pos N_MU) as HJ. fold JU in HJ.
  apply (range_ind (step:=JU) (hi:=j_end) (fun j0 l =>
    forall ib ptr gamma,
      ring_holds d alpha_dt (4 * q) j0 n ptr ib ->
      conv_done d alpha_dt (4 * q) j0 j_end
        (snd (fold_left (fun st j => blocked_row_group N_MU D_MU d alpha_dt (4 * q) j st)
                l (ib, ptr, gamma)))
      /\ conv_safe d alpha_dt gamma
           (snd (fold_left (fun st j => blocked_row_group N_MU D_MU d alpha_dt (4 * q) j st)
                   l (ib, ptr, gamma))))); [lia| |].
  - intros lo Hge ib ptr gamma _. cbn [fold_left snd]. split.
    + intros row theta delta r Hrow. lia.
    + apply conv_safe_refl.
  - intros lo Hlt IH ib ptr gamma Hr0. cbn [fold_left].
    destruct (row_group_spec (j0:=lo) gamma Hq Hcol Hr0) as (Hr1 & Hdone & Hsafe).
    destruct (blocked_row_group N_MU D_MU d alpha_dt (4 * q) lo (ib, ptr, gamma))
      as [[ib1 ptr1] gamma1] eqn:E.
    cbn [fst snd] in Hr1, Hdone, Hsafe.
    destruct (IH ib1 ptr1 gamma1 Hr1) as (Hdone' & Hsafe').
    split.
    + intros row theta delta r Hrow Ht Hdl Hr.
      destruct (Z_lt_le_dec row (lo + JU)) as [Hl|Hg].
      * apply (conv_done_safe Hdone Hsafe'); lia.
      * apply Hdone'; lia.
    + exact (conv_safe_trans Hsafe Hsafe').
Qed.

(** One group of four columns, lines 168-286. *)
Lemma column_spec q j_begin j_end st :
  0 <= q -> 4 * q + 4 <= S_ d ->
  let st' := blocked_column N_MU D_MU d alpha_dt j_begin j_end (4 * q) st in
  conv_done d alpha_dt (4 * q) j_begin j_end (snd st')
  /\ conv_safe d alpha_dt (snd st) (snd st').
Proof.
  intros Hq Hcol st'. unfold st', blocked_column. cbn [snd].
  apply row_groups_spec; try assumption.
  apply (@fill_ring T d alpha_dt N_MU (4 * q) Hd Hring).
Qed.

(** The groups of columns of a thread, lines 167-287. *)
Lemma columns_spec j_begin j_end l :
  (forall i, In i l -> exists q, i = 4 * q /\ 0 <= q /\ 4 * q + 4 <= S_ d) ->
  forall st,
    let st' := fold_left (fun st i => blocked_column N_MU D_MU d alpha_dt j_begin j_end i st)
                 l st in
    conv_safe d alpha_dt (snd st) (snd st')
    /\ forall i, In i l -> conv_done d alpha_dt i j_begin j_end (snd st').
Proof.
  induction l as [|i l IH]; intros Hl st; cbn [fold_left].
  - split; [apply conv_safe_refl|intros i []].
  - destruct (Hl i (or_introl eq_refl)) as (q & -> & Hq & Hcol).
    destruct (column_spec j_begin j_end st Hq Hcol) as (Hdone & Hsafe).
    destruct (IH (fun i' Hi' => Hl i' (or_intror Hi'))
                 (blocked_column N_MU D_MU d alpha_dt j_begin j_end (4 * q) st))
      as (Hsafe' & Hdone').
    split.
    + exact (conv_safe_trans Hsafe Hsafe').
    + intros i [<-|Hi].
      * exact (conv_done_safe Hdone Hsafe').
      * now apply Hdone'.
Qed.

End BlockedLoops.


(** ** The theorems on the sample configurations *)

Ltac by_run := vm_compute; repeat split; try reflexivity; intros; discriminate.

Lemma ex_w_dup_duplicated P rank k N n_mu d_mu B :
  w_dup_duplicated (ex_desc P rank k N n_mu d_mu B).
Proof. intros idx. split; reflexivity. Qed.

Lemma ex_ring_valid rank : valid_sizes (ex_ring rank).
Proof. by_run. Qed.

Lemma conv_kernel_sequential_sum_witness :
  cread (conv_remainder (ex_ring 0) (ex_alpha 0) 1 3 ex_zero)
        (S_ (ex_ring 0) * (1 * d_n_mu (ex_ring 0) + 3) + 2)
    = conv_spec (ex_ring 0) (ex_alpha 0) 1 3 2
  /\ cread (conv_boundary (ex_ring 0) (ex_alpha 1) 1 3 ex_zero)
           ((K_0 (ex_ring 0) * d_n_mu (ex_ring 0) + 1 * d_n_mu (ex_ring 0) + 3)
            * S_ (ex_ring 0) + 2)
    = conv_spec (ex_ring 0) (ex_alpha 1) 1 3 2.
Proof.
  apply (@conv_kernel_sequential_sum Z ZOps (ex_ring 0) (ex_alpha 0) (ex_alpha 1)
           ex_zero 1 3 2).
  - apply ex_w_dup_duplicated.
  - by_run.
  - by_run.
Defined.



Lemma scatter_is_index_permutation_witness :
  cread (scatter_block (ex_ring 0)
           (S_ (ex_ring 0) * (1 * d_n_mu (ex_ring 0) + 2)) (1 * d_n_mu (ex_ring 0) + 2)
           (ex_alpha 1) ex_zero)
        (3 * l_ (ex_ring 0) + 1 * d_n_mu (ex_ring 0) + 2)
    = cread (ex_alpha 1) (S_ (ex_ring 0) * (1 * d_n_mu (ex_ring 0) + 2) + 3)
  /\ cread (transpose_scalar (ex_ring 0) 1 (ex_alpha 1) ex_zero)
           (3 * l_ (ex_ring 0) + 1 * d_n_mu (ex_ring 0) + 2)
    = cread (ex_alpha 1) (S_ (ex_ring 0) * (1 * d_n_mu (ex_ring 0) + 2) + 3)
  /\ cread (scatter_blocks (ex_ring 0) [(0, 0, ex_alpha 0); (1, 2, ex_alpha 1)] ex_zero)
           (3 * l_ (ex_ring 0) + 1 * d_n_mu (ex_ring 0) + 2)
    = cread (ex_alpha 1) (S_ (ex_ring 0) * (1 * d_n_mu (ex_ring 0) + 2) + 3).
Proof.
  apply (@scatter_is_index_permutation Z (ex_ring 0)
           [(0, 0, ex_alpha 0); (1, 2, ex_alpha 1)] ex_zero (ex_alpha 1) 1 2 3).
  - reflexivity.
  - reflexivity.
  - intros b [<-|[<-|[]]]; by_run.
  - right; left; reflexivity.
  - intros g [H|[H|[]]]; [discriminate H|].
    injection H as <-. reflexivity.
  - by_run.
Defined.


Lemma unsupported_ratio_is_fatal_witness :
  exists w',
    parallel_filter_subsampling (ex_env 1 false) ex_ratio (ex_alpha 0) ex_world
    = Exited (-1) w'
    /\ refused (d_rank ex_ratio) UnsupportedRatio ex_world w'.
Proof.
  apply (@unsupported_ratio_is_fatal Z ZOps (ex_env 1 false) ex_ratio (ex_alpha 0)
           ex_world).
  intros [[H _]|[H _]]; discriminate H.
Defined.

Lemma input_too_small_refuses_witness :
  exists code msg w',
    parallel_filter_subsampling (ex_env 1 false) ex_small (ex_alpha 0) ex_world
    = Exited code w'
    /\ refused (d_rank ex_small) msg ex_world w'
    /\ (supported_ratio ex_small -> code = 0 /\ msg = InputSizeTooSmall).
Proof.
  apply (@input_too_small_refuses Z ZOps (ex_env 1 false) ex_small (ex_alpha 0)
           ex_world).
  - discriminate.
  - by_run.
  - reflexivity.
Defined.

Lemma exit_statuses_differ_witness :
  (exists w', parallel_filter_subsampling (ex_env 1 false) ex_small (ex_alpha 0) ex_world
              = Exited 0 w'
              /\ refused (d_rank ex_small) InputSizeTooSmall ex_world w')
  /\ (exists w', parallel_filter_subsampling (ex_env 1 false) ex_ratio (ex_alpha 0) ex_world
                 = Exited (-1) w'
                 /\ refused (d_rank ex_ratio) UnsupportedRatio ex_world w')
  /\ (if 0 =? d_rank (ex_groups 0)
      then exists w',
             parallel_filter_subsampling (ex_env 1 false) (ex_groups 0) (ex_alpha 0)
               ex_world = Exited (-1) w'
             /\ stderr (procs w' (d_rank (ex_groups 0)))
                = stderr (procs ex_world (d_rank (ex_groups 0)))
                  ++ [TooFewThreads (num_thread_groups (ex_groups 0))]
      else parallel_filter_subsampling (ex_env 1 false) (ex_groups 0) (ex_alpha 0)
             ex_world = Undefined).
Proof.
  apply (@exit_statuses_differ Z ZOps (ex_env 1 false) ex_small ex_ratio (ex_groups 0)
           (ex_alpha 0) ex_world).
  - left; split; reflexivity.
  - discriminate.
  - by_run.
  - reflexivity.
  - intros [[H _]|[H _]]; discriminate H.
  - left; split; reflexivity.
  - discriminate.
  - by_run.
  - by_run.
  - by_run.
Defined.


(** C5. A run where the register-blocked kernel and the straightforward one
    differ.  One process, one thread, [S = 4], [M = 136], ratio 5/4 and
    [B = 128]: the sizes are valid, [K_0 = 2], and the unrolled loop has the
    rows 0 and 1 in one group ([J_UNROLL_FACTOR = 2]).  The group needs
    [B + (J_UNROLL_FACTOR - 1)*d_mu = 132] segments in the ring, which holds
    [input_buffer_len = 128]: lines 177-183 put the segments 128..131 in the
    slots 0..3 before row 0 has read the segments 0..3 from them.  Element 0
    of the block of row 0 and oversampling index 0 then is not the sum that
    the kernel of the remainder rows computes for it, and the value goes
    unchanged to [gamma_tilde] and [alpha_tilde] at the end of the stage. *)
Theorem blocked_kernel_long_filter :
  valid_config (ex_env 1 false) (ex_long 128)
  /\ supported_ratio (ex_long 128)
  /\ d_B (ex_long 128) + (J_UNROLL_FACTOR 5 - 1) * d_d_mu (ex_long 128) = 132
  /\ local_rows 5 (ex_env 1 false) (ex_long 128) = [0; 1]
  /\ cread (conv_phase 5 4 (ex_env 1 false) (ex_long 128) (ex_alpha 0) ex_zero) 0
     = (-695936, 665417728)
  /\ cread (conv_remainder (ex_long 128) (ex_alpha 0) 0 0 ex_zero) 0
     = (-683648, 664643584)
  /\ conv_spec (ex_long 128) (ex_alpha 0) 0 0 0 = (-683648, 664643584)
  /\ match parallel_filter_subsampling (ex_env 1 false) (ex_long 128) (ex_alpha 0)
             ex_world with
     | Returned w => Some (cread (gamma_tilde (procs w 0)) 0,
                           cread (alpha_tilde (procs w 0)) 0)
     | _ => None
     end = Some ((-695936, 665417728), (-695936, 665417728)).
Proof.
  split; [by_run|].
  split; [left; split; reflexivity|].
  repeat split; vm_compute; reflexivity.
Qed.

(** C9. Runs of the thread-count guard of lines 128-132.  With [S = 32] there
    are eight thread groups.  One thread on rank 1: the guard, which tests
    [0 == rank], lets the process through, and [nthreads/num_thread_groups]
    is 0 when line 150 divides by it; nothing was reported.  The same on
    rank 0: [exit(-1)] with the diagnostic, after the ghost exchange was
    issued.  Twelve threads on rank 0, which is not a multiple of eight: with
    the asserts compiled out the Local-Only Pass runs and nothing is
    reported, the process then waits for its neighbour; with the asserts
    compiled in, line 151 aborts. *)
Theorem thread_guard_rank0_only :
  num_thread_groups (ex_groups 1) = 8
  /\ parallel_filter_subsampling (ex_env 1 false) (ex_groups 1) (ex_alpha 1) ex_world
     = Undefined
  /\ observe 0 (parallel_filter_subsampling (ex_env 1 false) (ex_groups 0) (ex_alpha 0)
                  ex_world)
     = (Exits (-1), [TooFewThreads 8],
        [EvMemcpy 0 512 512; EvIrecv 1 512 256; EvIsend 1 256])
  /\ observe 0 (parallel_filter_subsampling (ex_env 12 true) (ex_groups 0) (ex_alpha 0)
                  ex_world)
     = (Blocks, [],
        [EvMemcpy 0 512 512; EvIrecv 1 512 256; EvIsend 1 256; EvLocalPass])
  /\ observe 0 (parallel_filter_subsampling (ex_env 12 false) (ex_groups 0) (ex_alpha 0)
                  ex_world)
     = (Aborts, [], [EvMemcpy 0 512 512; EvIrecv 1 512 256; EvIsend 1 256]).
Proof.
  repeat split; vm_compute; reflexivity.
Qed.
